(** * A shallow embedding of go-http-client

    The client builds a request from an endpoint and two chains of option
    functions (client-wide, then per call), sends it through a pluggable
    transport, validates the response and hands it to a pluggable parser.

    Go values are modelled as follows.
    - A Go string and a byte slice are sequences of bytes: [string] and
      [list byte], converted by [string_of_list_byte].
    - A pointer that the code tests against [nil] is an [option].
    - [http.Header] is a [gmap string (list string)].
    - A call that may return an [error] or panic yields a [result].
    - Closures capture and change outside state; that state is threaded
      explicitly through every call. *)

From Stdlib Require Import ZArith NArith List String Ascii Lia.
From Stdlib.Strings Require Import Byte.
From stdpp Require Import base gmap strings list.

Local Open Scope Z_scope.

(** * Part I: the model *)

(** ** Errors and outcomes *)

(** [StatusCodeError] represents an http response error. *)
Record StatusCodeError := mkStatusCodeError {
  Code : Z;
  Status : string;
  Body : string
}.

Definition HTTPStatusCode (t : StatusCodeError) : Z := Code t.

(** How [%v] renders an argument of [fmt.Errorf]: only whether the value
    was nil is kept. *)
Inductive printed := PrintedNil | PrintedValue.

Definition printed_of {A : Type} (p : option A) : printed :=
  match p with
  | None => PrintedNil
  | Some _ => PrintedValue
  end.

(** Error values: [fmt.Errorf] without and with a wrapped error ([%w]),
    the status error of this package, and errors made elsewhere
    (transport, readers, JSON decoding, request construction). *)
Inductive Error :=
| Errorf (format : string) (args : list printed)
| ErrorfW (format : string) (err : Error)
| ErrStatusCode (e : StatusCodeError)
| ErrForeign (msg : string).

(** A Go value of interface type [error]: [None] is [nil]. *)
Definition error : Type := option Error.

(** The outcome of a call: it returns a value or panics. *)
Inductive result (A : Type) :=
| Done (a : A)
| Panicked (msg : string).

Arguments Done {A} a.
Arguments Panicked {A} msg.

Definition nil_dereference : string :=
  "runtime error: invalid memory address or nil pointer dereference".

Definition nil_map_assignment : string := "assignment to entry in nil map".

(** ** The standard library, as far as the client relies on it *)

Module base64.

(** The standard alphabet with padding ([StdEncoding]). *)
Definition encodeStd : string :=
  "ABCDEFGHIJKLMNOPQRSTUVWXYZabcdefghijklmnopqrstuvwxyz0123456789+/".

Definition padChar : ascii := "="%char.

(** [enc.encode[val>>shift&0x3F]] *)
Definition sextet (val shift : N) : ascii :=
  match String.get (N.to_nat (N.land (N.shiftr val shift) 63)) encodeStd with
  | Some ch => ch
  | None => padChar
  end.

Fixpoint EncodeToString (src : list byte) : string :=
  match src with
  | [] => EmptyString
  | [b0] =>
      let val := N.shiftl (Byte.to_N b0) 16 in
      String (sextet val 18) (String (sextet val 12)
        (String padChar (String padChar EmptyString)))
  | [b0; b1] =>
      let val := N.lor (N.shiftl (Byte.to_N b0) 16) (N.shiftl (Byte.to_N b1) 8) in
      String (sextet val 18) (String (sextet val 12)
        (String (sextet val 6) (String padChar EmptyString)))
  | b0 :: b1 :: b2 :: rest =>
      let val := N.lor (N.lor (N.shiftl (Byte.to_N b0) 16)
                              (N.shiftl (Byte.to_N b1) 8)) (Byte.to_N b2) in
      String (sextet val 18) (String (sextet val 12)
        (String (sextet val 6) (String (sextet val 0) (EncodeToString rest))))
  end.

End base64.

Module io.

(** A body stream: the bytes not yet read, and the error (if any) that
    reading meets once they are exhausted instead of the end of file. *)
Record ReadCloser := mkReadCloser {
  unread : list byte;
  fault : error
}.

End io.

Module ioutil.

(** [ReadAll] reads until an error or the end of file; it returns what
    it read and the error, and leaves the stream drained. *)
Definition ReadAll (r : io.ReadCloser) : list byte * error * io.ReadCloser :=
  (io.unread r, io.fault r, {| io.unread := []; io.fault := io.fault r |}).

End ioutil.

Module http.

Definition MethodGet : string := "GET".

Record Request := mkRequest {
  Method : string;
  URL : string;
  Header : option (gmap string (list string))
}.

Definition set_Header (req : Request) (h : option (gmap string (list string))) : Request :=
  {| Method := Method req; URL := URL req; Header := h |}.

Definition basicAuth (username password : string) : string :=
  base64.EncodeToString (list_byte_of_string (username +:+ ":" +:+ password)).

(** [req.SetBasicAuth] sets the Authorization header to the word Basic
    followed by the encoded credentials.  The key is already in
    canonical MIME form; setting replaces the values stored under it,
    and an assignment into a nil map panics. *)
Definition SetBasicAuth (username password : string) (req : Request) : result Request :=
  match Header req with
  | None => Panicked nil_map_assignment
  | Some h =>
      Done (set_Header req
        (Some (<["Authorization" := ["Basic " +:+ basicAuth username password]]> h)))
  end.

(** [req.Header.Add(key, value)] for a key in canonical form. *)
Definition Header_Add (key value : string) (req : Request) : result Request :=
  match Header req with
  | None => Panicked nil_map_assignment
  | Some h =>
      Done (set_Header req (Some (<[key := default [] (h !! key) ++ [value]]> h)))
  end.

(** A response as the transport hands it over; by the contract of
    [http.Client.Do] it carries a body.  [Closed] tells whether library
    code has closed the stream that the transport handed over as the
    body: the stream is an object, and a library function that reads it
    to its end, closes it and leaves a copy of the bytes in its place
    (as [httputil.DumpResponse] does) has closed it for everyone who
    still holds it. *)
Record Response := mkResponse {
  StatusCode : Z;
  Status : string;
  ContentLength : Z;
  Body : io.ReadCloser;
  Closed : bool
}.

Definition set_Body (resp : Response) (b : io.ReadCloser) : Response :=
  {| StatusCode := StatusCode resp; Status := Status resp;
     ContentLength := ContentLength resp; Body := b; Closed := Closed resp |}.

End http.

(** What the model takes from outside as it is: the types of contexts,
    of (non-nil) JSON destinations and of loggers, and the state of
    everything beyond the client (network, log sinks, variables captured
    by closures). *)
Class Universe := {
  Ctx : Type;
  Destination : Type;
  Logger : Type;
  Outside : Type
}.

(** A value held by a variable that a parser writes through a pointer. *)
Inductive Value :=
| VString (s : string)
| VBytes (b : list byte).

Record Store `{Universe} := mkStore {
  cells : gmap nat Value;
  outside : Outside
}.

Definition assign `{Universe} (dst : nat) (v : Value) (s : Store) : Store :=
  {| cells := <[dst := v]> (cells s); outside := outside s |}.

Definition on_outside `{Universe} (f : Outside -> Outside) (s : Store) : Store :=
  {| cells := cells s; outside := f (outside s) |}.

(** A Go function from a pointer to an error.  The argument and the
    middle component of the answer are the object the pointer addresses
    before and after the call, [None] for a nil pointer.  A nil function
    value behaves as a function that panics. *)
Definition pointer_fn `{Universe} (A : Type) : Type :=
  option A -> Store -> result error * option A * Store.

Definition RequestOption `{Universe} : Type := pointer_fn http.Request.
Definition ResponseParser `{Universe} : Type := pointer_fn http.Response.
Definition ValidateResponse `{Universe} : Type := pointer_fn http.Response.

(** The transport: [Do] sends a request and returns a response or an
    error. *)
Record httpClient `{Universe} := mkHttpClient {
  Do : http.Request -> Store -> result (option http.Response * error) * Store
}.

(** Library functions whose result is taken as given. *)
Class Library `{Universe} := {
  NewRequestWithContext : Ctx -> string -> string -> http.Request + Error;
  DumpRequestOut : http.Request -> list byte + Error;
  Response_Write : http.Response -> list byte + Error;
  Decode : io.ReadCloser -> Destination -> Store -> error * io.ReadCloser * Store;
  Infof : Logger -> string -> Outside -> Outside;
  ErrorWith : Logger -> Error -> string -> Outside -> Outside;
  log_New : Logger;
  http_Client : httpClient
}.

(** ** The client *)

Section Client.

Context {U : Universe} {L : Library}.

(** *** Request options *)

(** WithHeadersOpt add headers to a request.  The request then shares
    the caller's map; here it holds what the map holds when the option
    is applied, which tells the headers of the request right after this
    option.  What a later option writes into a shared map, and what a
    second use of the same map then carries, is told by the embedding
    of the maps as objects in [ByReference]. *)
Definition WithHeadersOpt (header : option (gmap string (list string))) : RequestOption :=
  fun req s =>
    match header, req with
    | Some _, Some r => (Done None, Some (http.set_Header r header), s)
    | _, _ =>
        (Done (Some (Errorf "WithHeadersOpt error: %v | %v"
                       [printed_of req; printed_of header])), req, s)
    end.

(** The closure that [RequestBasicAuthOption] adds to the chain. *)
Definition basicAuthRequestOption (username password : string) : RequestOption :=
  fun req s =>
    match req with
    | None => (Panicked nil_dereference, None, s)
    | Some r =>
        match http.SetBasicAuth username password r with
        | Done r' => (Done None, Some r', s)
        | Panicked msg => (Panicked msg, Some r, s)
        end
    end.

(** The option of the example client: it adds one header value. *)
Definition addHeaderRequestOption (key value : string) : RequestOption :=
  fun req s =>
    match req with
    | None => (Panicked nil_dereference, None, s)
    | Some r =>
        match http.Header_Add key value r with
        | Done r' => (Done None, Some r', s)
        | Panicked msg => (Panicked msg, Some r, s)
        end
    end.

(** *** Logging *)

Definition logRequest (req : http.Request) (log : option Logger) (s : Store)
  : result unit * Store :=
  match DumpRequestOut req, log with
  | _, None => (Panicked nil_dereference, s)
  | inr err, Some l =>
      (Done tt, on_outside (ErrorWith l err "failed to dump http request for logging") s)
  | inl requestDump, Some l =>
      (Done tt, on_outside (Infof l (string_of_list_byte requestDump)) s)
  end.

(** [httputil.DumpResponse(resp, true)]: it reads the body to its end;
    when that fails it returns the read error and leaves the stream as
    far as it was read.  Otherwise it closes the stream, puts a reader
    over the same bytes in its place, and returns the response in wire
    form, or the error of writing it. *)
Definition DumpResponse (resp : http.Response) : (list byte + Error) * http.Response :=
  let '(body, err, b) := ioutil.ReadAll (http.Body resp) in
  match err with
  | Some err => (inr err, http.set_Body resp b)
  | None =>
      let save :=
        {| http.StatusCode := http.StatusCode resp;
           http.Status := http.Status resp;
           http.ContentLength := http.ContentLength resp;
           http.Body := {| io.unread := body; io.fault := None |};
           http.Closed := true |} in
      (Response_Write save, save)
  end.

Definition logResponse (resp : http.Response) (log : option Logger) (s : Store)
  : result unit * http.Response * Store :=
  match DumpResponse resp, log with
  | (_, resp'), None => (Panicked nil_dereference, resp', s)
  | (inr err, resp'), Some l =>
      (Done tt, resp',
       on_outside (ErrorWith l err "failed to dump http response for logging") s)
  | (inl respDump, resp'), Some l =>
      (Done tt, resp', on_outside (Infof l (string_of_list_byte respDump)) s)
  end.

(** *** Response parsers *)

Definition RawStringParser (dst : option nat) : ResponseParser :=
  fun resp s =>
    match resp, dst with
    | Some r, Some d =>
        let '(body, err, b) := ioutil.ReadAll (http.Body r) in
        match err with
        | Some err =>
            (Done (Some (ErrorfW "failed to read resp body: %w" err)),
             Some (http.set_Body r b), s)
        | None =>
            (Done None, Some (http.set_Body r b),
             assign d (VString (string_of_list_byte body)) s)
        end
    | _, _ =>
        (Done (Some (Errorf "RawStringParser function error: %v | %v"
                       [printed_of resp; printed_of dst])), resp, s)
    end.

Definition RawBodyParser (dst : option nat) : ResponseParser :=
  fun resp s =>
    match resp, dst with
    | Some r, Some d =>
        let '(body, err, b) := ioutil.ReadAll (http.Body r) in
        match err with
        | Some err =>
            (Done (Some (ErrorfW "failed to read resp body: %w" err)),
             Some (http.set_Body r b), s)
        | None =>
            (Done None, Some (http.set_Body r b), assign d (VBytes body) s)
        end
    | _, _ =>
        (Done (Some (Errorf "RawBodyParser function error: %v | %v"
                       [printed_of resp; printed_of dst])), resp, s)
    end.

Definition NoBodyParser (log : option Logger) : ResponseParser :=
  fun resp s =>
    match resp with
    | None => (Panicked nil_dereference, None, s)
    | Some r =>
        if negb (http.ContentLength r =? 0) && bool_decide (is_Some log) then
          match logResponse r log s with
          | (Done _, r', s') => (Done None, Some r', s')
          | (Panicked msg, r', s') => (Panicked msg, Some r', s')
          end
        else (Done None, Some r, s)
    end.

(** The destination is an interface value: [None] is the nil interface,
    the only value the test against nil catches.  A nil pointer of some
    type inside an interface is a destination like any other, and it is
    for the decoder to refuse it. *)
Definition JsonParser (dst : option Destination) : ResponseParser :=
  fun resp s =>
    match resp, dst with
    | Some r, Some d =>
        let '(e, b, s') := Decode (http.Body r) d s in
        (Done e, Some (http.set_Body r b), s')
    | _, _ =>
        (Done (Some (Errorf "JsonParser function error: %v | %v"
                       [printed_of resp; printed_of dst])), resp, s)
    end.

(** *** The default validator *)

Definition ResponseValidator : ValidateResponse :=
  fun resp s =>
    match resp with
    | None => (Panicked nil_dereference, None, s)
    | Some r =>
        if http.StatusCode r >? 300 then
          let '(body, err, b) := ioutil.ReadAll (http.Body r) in
          match err with
          | Some err =>
              (Done (Some (ErrorfW "failed to read response body: %w" err)),
               Some (http.set_Body r b), s)
          | None =>
              (Done (Some (ErrStatusCode
                             {| Code := http.StatusCode r;
                                Status := http.Status r;
                                Body := string_of_list_byte body |})),
               Some (http.set_Body r b), s)
          end
        else (Done None, Some r, s)
    end.

(** *** Configuration *)

Record Client := mkClient {
  endpoint : string;
  log : option Logger;
  httpClient_ : httpClient;
  requestOptionsChain : list RequestOption;
  validateResponseFn : ValidateResponse;
  debug : bool
}.

Definition Option : Type := Client -> Client.

(** WithHttpClient setup a custom http client *)
Definition WithHttpClient (client : httpClient) : Option :=
  fun c => {| endpoint := endpoint c; log := log c; httpClient_ := client;
              requestOptionsChain := requestOptionsChain c;
              validateResponseFn := validateResponseFn c; debug := debug c |}.

Definition WithLog (l : option Logger) : Option :=
  fun c => {| endpoint := endpoint c; log := l; httpClient_ := httpClient_ c;
              requestOptionsChain := requestOptionsChain c;
              validateResponseFn := validateResponseFn c; debug := debug c |}.

(** add filters which will be applied to all the requests *)
Definition WithRequestOptions (fn : list RequestOption) : Option :=
  fun c => {| endpoint := endpoint c; log := log c; httpClient_ := httpClient_ c;
              requestOptionsChain := requestOptionsChain c ++ fn;
              validateResponseFn := validateResponseFn c; debug := debug c |}.

(** RequestBasicAuthOption add basic credentials to all the requests *)
Definition RequestBasicAuthOption (username password : string) : Option :=
  fun c => {| endpoint := endpoint c; log := log c; httpClient_ := httpClient_ c;
              requestOptionsChain :=
                requestOptionsChain c ++ [basicAuthRequestOption username password];
              validateResponseFn := validateResponseFn c; debug := debug c |}.

(** WithDebug enable debugging for the client *)
Definition WithDebug (b : bool) : Option :=
  fun c => {| endpoint := endpoint c; log := log c; httpClient_ := httpClient_ c;
              requestOptionsChain := requestOptionsChain c;
              validateResponseFn := validateResponseFn c; debug := b |}.

(** WithResponseValidator set a custom response validator function *)
Definition WithResponseValidator (v : ValidateResponse) : Option :=
  fun c => {| endpoint := endpoint c; log := log c; httpClient_ := httpClient_ c;
              requestOptionsChain := requestOptionsChain c;
              validateResponseFn := v; debug := debug c |}.

Definition NewClient (endpoint : string) (options : list Option) : Client :=
  fold_left (fun c opt => opt c) options
    {| endpoint := endpoint;
       httpClient_ := http_Client;
       log := Some log_New;
       requestOptionsChain := [];
       validateResponseFn := ResponseValidator;
       debug := false |}.

End Client.

(** ** The request pipeline *)

(** Which chain an option belongs to. *)
Inductive chain := Global | PerCall.

(** What a call of [DoRequest] does to its pluggable parts, in order:
    each option it applies (with the chain, the position in the chain and
    the outcome), the request it hands to the transport, the response it
    hands to the validator and to the parser, and the closing of the
    response body. *)
Inductive Event :=
| EvOption (ch : chain) (i : nat) (o : result error)
| EvSend (req : http.Request) (o : result (option http.Response * error))
| EvValidate (resp : http.Response) (o : result error)
| EvParse (resp : http.Response) (o : result error)
| EvClose.

Section Pipeline.

Context {U : Universe} {L : Library}.

(** A computation: from a store to an outcome, the store it leaves and
    the events it caused. *)
Definition M (A : Type) : Type := Store -> result A * Store * list Event.

Definition ret {A : Type} (a : A) : M A := fun s => (Done a, s, []).

Definition bind {A B : Type} (m : M A) (k : A -> M B) : M B :=
  fun s =>
    match m s with
    | (Done a, s1, t1) => let '(r, s2, t2) := k a s1 in (r, s2, t1 ++ t2)
    | (Panicked msg, s1, t1) => (Panicked msg, s1, t1)
    end.

Definition panic {A : Type} (msg : string) : M A := fun s => (Panicked msg, s, []).

Definition emit (e : Event) : M unit := fun s => (Done tt, s, [e]).

(** [defer cleanup body]: the cleanup runs when the body is left, by a
    return or by a panic. *)
Definition defer {A : Type} (cleanup : M unit) (body : M A) : M A :=
  fun s =>
    let '(r, s1, t1) := body s in
    match cleanup s1 with
    | (Done _, s2, t2) => (r, s2, t1 ++ t2)
    | (Panicked msg, s2, t2) => (Panicked msg, s2, t1 ++ t2)
    end.

Notation "'let*' x := m 'in' k" := (bind m (fun x => k))
  (at level 10, x pattern, m at level 100, k at level 200, only parsing).

(** A call [f(p)] with a non-nil pointer [p] to [obj]: the caller goes
    on with the object as the callee left it. *)
Definition call {A : Type} (f : pointer_fn A) (obj : A) (s : Store)
  : result error * A * Store :=
  let '(o, p, s') := f (Some obj) s in (o, default obj p, s').

Definition call_option (ch : chain) (i : nat) (opt : RequestOption)
    (req : http.Request) : M (error * http.Request) :=
  fun s =>
    let '(o, req', s') := call opt req s in
    (match o with
     | Done e => Done (e, req')
     | Panicked msg => Panicked msg
     end, s', [EvOption ch i o]).

Definition call_validator (v : ValidateResponse) (resp : http.Response)
  : M (error * http.Response) :=
  fun s =>
    let '(o, resp', s') := call v resp s in
    (match o with
     | Done e => Done (e, resp')
     | Panicked msg => Panicked msg
     end, s', [EvValidate resp o]).

Definition call_parser (p : ResponseParser) (resp : http.Response) : M error :=
  fun s =>
    let '(o, _, s') := call p resp s in (o, s', [EvParse resp o]).

Definition send (t : httpClient) (req : http.Request)
  : M (option http.Response * error) :=
  fun s => let '(o, s') := Do t req s in (o, s', [EvSend req o]).

Definition logRequestM (req : http.Request) (l : option Logger) : M unit :=
  fun s => let '(o, s') := logRequest req l s in (o, s', []).

Definition logResponseM (resp : http.Response) (l : option Logger) : M http.Response :=
  fun s =>
    let '(o, resp', s') := logResponse resp l s in
    (match o with
     | Done _ => Done resp'
     | Panicked msg => Panicked msg
     end, s', []).

(** One of the two loops over a chain of options: the answer is the
    error [DoRequest] returns at once, or [None] to go on. *)
Fixpoint apply_options (ch : chain) (i : nat) (opts : list RequestOption)
    (req : http.Request) : M (error * http.Request) :=
  match opts with
  | [] => ret (None, req)
  | opt :: rest =>
      let* (e, req') := call_option ch i opt req in
      match e with
      | Some err =>
          ret (Some (ErrorfW "failed to apply global request option: %w" err), req')
      | None => apply_options ch (S i) rest req'
      end
  end.

Definition DoRequest (c : Client) (ctx : Ctx) (method path : string)
    (parser : ResponseParser) (options : list RequestOption) : M error :=
  match NewRequestWithContext ctx method (endpoint c +:+ path) with
  | inr err => ret (Some err)
  | inl req =>
      (* apply global request options *)
      let* (e, req) := apply_options Global 0 (requestOptionsChain c) req in
      match e with
      | Some err => ret (Some err)
      | None =>
          (* apply custom request options *)
          let* (e, req) := apply_options PerCall 0 options req in
          match e with
          | Some err => ret (Some err)
          | None =>
              let* _ := (if debug c then logRequestM req (log c) else ret tt) in
              let* (resp, err) := send (httpClient_ c) req in
              match err, resp with
              | Some err, _ => ret (Some err)
              | None, None => panic nil_dereference
              | None, Some resp =>
                  defer (emit EvClose)
                    (let* resp := (if debug c then logResponseM resp (log c)
                                   else ret resp) in
                     let* (e, resp) := call_validator (validateResponseFn c) resp in
                     match e with
                     | Some err => ret (Some err)
                     | None => call_parser parser resp
                     end)
              end
          end
      end
  end.

Definition DoRequestJson (c : Client) (ctx : Ctx) (method path : string)
    (intf : option Destination) (options : list RequestOption) : M error :=
  DoRequest c ctx method path (JsonParser intf) options.

Definition GetJson (c : Client) (ctx : Ctx) (path : string)
    (intf : option Destination) (options : list RequestOption) : M error :=
  DoRequestJson c ctx http.MethodGet path intf options.

Definition DoRequestNoBody (c : Client) (ctx : Ctx) (method path : string)
    (options : list RequestOption) : M error :=
  DoRequest c ctx method path (NoBodyParser (log c)) options.

Definition Get (c : Client) (ctx : Ctx) (path : string)
    (options : list RequestOption) : M error :=
  DoRequestNoBody c ctx http.MethodGet path options.

Definition DoRequestString (c : Client) (ctx : Ctx) (method path : string)
    (out : option nat) (options : list RequestOption) : M error :=
  DoRequest c ctx method path (RawStringParser out) options.

(** *** Reading a run *)

Definition answer {A : Type} (r : result A * Store * list Event) : result A := r.1.1.
Definition final {A : Type} (r : result A * Store * list Event) : Store := r.1.2.
Definition trace {A : Type} (r : result A * Store * list Event) : list Event := r.2.

Definition is_option (e : Event) : bool :=
  match e with EvOption _ _ _ => true | _ => false end.
Definition is_send (e : Event) : bool :=
  match e with EvSend _ _ => true | _ => false end.
Definition is_validate (e : Event) : bool :=
  match e with EvValidate _ _ => true | _ => false end.
Definition is_parse (e : Event) : bool :=
  match e with EvParse _ _ => true | _ => false end.
Definition is_close (e : Event) : bool :=
  match e with EvClose => true | _ => false end.

(** How many events of a kind a trace holds. *)
Definition count (kind : Event -> bool) (t : list Event) : nat :=
  length (List.filter kind t).

End Pipeline.

(** ** The parsers that deliver a value *)

Section Delivering.

Context {U : Universe} {L : Library}.

(** A built-in parser that writes through a destination. *)
Inductive Delivering :=
| Json (dst : option Destination)
| RawString (dst : option nat)
| RawBody (dst : option nat).

Definition parser_of (p : Delivering) : ResponseParser :=
  match p with
  | Json dst => JsonParser dst
  | RawString dst => RawStringParser dst
  | RawBody dst => RawBodyParser dst
  end.

Definition nil_destination (p : Delivering) : bool :=
  match p with
  | Json None | RawString None | RawBody None => true
  | _ => false
  end.

(** The error such a parser makes of a nil response or destination. *)
Definition configuration_error (p : Delivering) (resp : option http.Response) : Error :=
  match p with
  | Json dst =>
      Errorf "JsonParser function error: %v | %v" [printed_of resp; printed_of dst]
  | RawString dst =>
      Errorf "RawStringParser function error: %v | %v" [printed_of resp; printed_of dst]
  | RawBody dst =>
      Errorf "RawBodyParser function error: %v | %v" [printed_of resp; printed_of dst]
  end.

End Delivering.

(** ** The shapes a run can take *)

Definition wrapped_option_error (e : Error) : Error :=
  ErrorfW "failed to apply global request option: %w" e.

(** An option was applied and returned nil. *)
Definition success (e : Event) : Prop :=
  exists ch i, e = EvOption ch i (Done None).

(** What follows the transport's response: the answer of the call and the
    events up to the closing of the body.  [validated resp resp'] says
    what is known of a response [resp] that the validator accepted and
    left as [resp'], [parsed resp' o] of a parser that was handed [resp']
    and came back with [o]. *)
Inductive Tail (validated : http.Response -> http.Response -> Prop)
    (parsed : http.Response -> result error -> Prop)
  : result error -> list Event -> Prop :=
| LogResponsePanicked msg :
    Tail validated parsed (Panicked msg) [EvClose]
| ValidatorPanicked resp msg :
    Tail validated parsed (Panicked msg) [EvValidate resp (Panicked msg); EvClose]
| Rejected resp err :
    Tail validated parsed (Done (Some err))
      [EvValidate resp (Done (Some err)); EvClose]
| Parsed resp resp' o :
    validated resp resp' ->
    parsed resp' o ->
    Tail validated parsed o
      [EvValidate resp (Done None); EvParse resp' o; EvClose].

(** The events of [k] options of a chain, from position [i] on, that
    all returned nil. *)
Definition successes (ch : chain) (i k : nat) : list Event :=
  map (fun j => EvOption ch j (Done None)) (seq i k).

(** The options applied before the call went on or stopped, for a global
    chain of [n] options and [m] options of the call: all of both chains
    in turn, or the options before the one ([Some] chain and position)
    that did not return nil. *)
Inductive Applied (n m : nat) : list Event -> option (chain * nat) -> Prop :=
| AllApplied :
    Applied n m (successes Global 0 n ++ successes PerCall 0 m) None
| StoppedGlobal k :
    (k < n)%nat ->
    Applied n m (successes Global 0 k) (Some (Global, k))
| StoppedPerCall k :
    (k < m)%nat ->
    Applied n m (successes Global 0 n ++ successes PerCall 0 k) (Some (PerCall, k)).

(** The answer and the events of a whole call.  [sent req] says what is
    known of a request that was handed to the transport. *)
Inductive Shape (n m : nat)
    (sent : http.Request -> Prop)
    (validated : http.Response -> http.Response -> Prop)
    (parsed : http.Response -> result error -> Prop)
  : result error -> list Event -> Prop :=
| NotBuilt err :
    Shape n m sent validated parsed (Done (Some err)) []
| OptionFailed pre ch i e :
    Applied n m pre (Some (ch, i)) ->
    Shape n m sent validated parsed (Done (Some (wrapped_option_error e)))
          (pre ++ [EvOption ch i (Done (Some e))])
| OptionPanicked pre ch i msg :
    Applied n m pre (Some (ch, i)) ->
    Shape n m sent validated parsed (Panicked msg)
          (pre ++ [EvOption ch i (Panicked msg)])
| LogRequestPanicked pre msg :
    Applied n m pre None ->
    Shape n m sent validated parsed (Panicked msg) pre
| SendPanicked pre req msg :
    Applied n m pre None ->
    sent req ->
    Shape n m sent validated parsed (Panicked msg)
          (pre ++ [EvSend req (Panicked msg)])
| SendFailed pre req resp err :
    Applied n m pre None ->
    sent req ->
    Shape n m sent validated parsed (Done (Some err))
          (pre ++ [EvSend req (Done (resp, Some err))])
| SentNothingBack pre req :
    Applied n m pre None ->
    sent req ->
    Shape n m sent validated parsed (Panicked nil_dereference)
          (pre ++ [EvSend req (Done (None, None))])
| Answered pre req resp o tail :
    Applied n m pre None ->
    sent req ->
    Tail validated parsed o tail ->
    Shape n m sent validated parsed o
          (pre ++ EvSend req (Done (Some resp, None)) :: tail).

(** The options a trace shows as applied, by chain and position. *)
Definition applied (t : list Event) : list (chain * nat) :=
  flat_map (fun e => match e with
                     | EvOption ch i _ => [(ch, i)]
                     | _ => []
                     end) t.

Definition returned_nil (o : result error) : bool :=
  match o with
  | Done None => true
  | _ => false
  end.

(** The options of a call in the order of declaration: the global chain
    of [n] options, then the [m] options of the call. *)
Definition declared (n m : nat) : list (chain * nat) :=
  map (pair Global) (seq 0 n) ++ map (pair PerCall) (seq 0 m).

(** What a parser is seen to do from the pipeline: on some store, handed
    the response, it comes back with the outcome. *)
Definition outcome_of `{Universe} (parser : ResponseParser)
    (resp : http.Response) (o : result error) : Prop :=
  exists s, (parser (Some resp) s).1.1 = o.

(** What is known of the request a call sends: it is the request as
    built, after the global chain and then the options of the call have
    been applied to it and all returned nil. *)
Definition built_by `{Library} (c : Client) (ctx : Ctx) (method path : string)
    (options : list RequestOption) (s : Store) (req : http.Request) : Prop :=
  exists req0 req1 s1 t1 s2 t2,
    NewRequestWithContext ctx method (endpoint c +:+ path) = inl req0 /\
    apply_options Global 0 (requestOptionsChain c) req0 s =
      (Done (None, req1), s1, t1) /\
    apply_options PerCall 0 options req1 s1 = (Done (None, req), s2, t2).

(** What an accepting validator is seen to do: on some store, handed the
    response, it returns nil and leaves the response as [resp']. *)
Definition accepted_by `{Universe} (v : ValidateResponse)
    (resp resp' : http.Response) : Prop :=
  exists s,
    (v (Some resp) s).1.1 = Done None /\
    default resp (v (Some resp) s).1.2 = resp'.

(** ** A concrete setting

    One choice of the outside world, in the manner of the example
    program: a server that answers from a table, a logger that keeps its
    lines, options that leave a mark. *)

Module Scenario.

Definition universe : Universe :=
  {| Ctx := unit; Destination := nat; Logger := nat; Outside := list string |}.

#[local] Existing Instance universe.

Definition has_space (s : string) : bool :=
  existsb (Ascii.eqb " "%char) (list_ascii_of_string s).

(** Request construction refuses a method that is no token. *)
Definition newRequest (_ : unit) (method url : string) : http.Request + Error :=
  if has_space method then inr (ErrForeign "net/http: invalid method")
  else inl {| http.Method := if String.eqb method "" then "GET" else method;
              http.URL := url;
              http.Header := Some ∅ |}.

(** A toy decoder: it reads the whole body and stores it raw.
    Destination 0 stands for a nil pointer inside an interface, as the
    example program passes one: the decoder reads and then refuses it. *)
Definition decode (body : io.ReadCloser) (dst : nat) (s : Store)
  : error * io.ReadCloser * Store :=
  let '(data, err, b) := ioutil.ReadAll body in
  match err with
  | Some e => (Some e, b, s)
  | None =>
      if (dst =? 0)%nat then (Some (ErrForeign "json: Unmarshal(nil)"), b, s)
      else (None, b, assign dst (VBytes data) s)
  end.

(** A transport that answers every request with the same response. *)
Definition answering (resp : http.Response) : httpClient :=
  {| Do := fun _ s => (Done (Some resp, None), s) |}.

(** A transport that cannot connect. *)
Definition refusing : httpClient :=
  {| Do := fun _ s => (Done (None, Some (ErrForeign "connection refused")), s) |}.

Definition library : Library :=
  {| NewRequestWithContext := newRequest;
     DumpRequestOut := fun req =>
       inl (list_byte_of_string (http.Method req +:+ " " +:+ http.URL req));
     Response_Write := fun resp => inl (io.unread (http.Body resp));
     Decode := decode;
     Infof := fun _ line o => o ++ [line];
     ErrorWith := fun _ _ line o => o ++ [line];
     log_New := 0%nat;
     http_Client := refusing |}.

#[local] Existing Instance library.

Definition body_of (text : string) : io.ReadCloser :=
  {| io.unread := list_byte_of_string text; io.fault := None |}.

Definition notFound : http.Response :=
  {| http.StatusCode := 404; http.Status := "404 Not Found";
     http.ContentLength := 9; http.Body := body_of "not found";
     http.Closed := false |}.

Definition created : http.Response :=
  {| http.StatusCode := 201; http.Status := "201 Created";
     http.ContentLength := 0; http.Body := body_of "";
     http.Closed := false |}.

Definition groups : http.Response :=
  {| http.StatusCode := 200; http.Status := "200 OK";
     http.ContentLength := 2; http.Body := body_of "[]";
     http.Closed := false |}.

(** The two responses at the boundary of the default validator. *)
Definition multipleChoices : http.Response :=
  {| http.StatusCode := 300; http.Status := "300 Multiple Choices";
     http.ContentLength := 5; http.Body := body_of "which";
     http.Closed := false |}.

Definition movedPermanently : http.Response :=
  {| http.StatusCode := 301; http.Status := "301 Moved Permanently";
     http.ContentLength := 5; http.Body := body_of "moved";
     http.Closed := false |}.

Definition s0 : Store := {| cells := ∅; outside := [] |}.

(** An option that leaves its name outside and changes nothing else. *)
Definition marking (name : string) : RequestOption :=
  fun req s => (Done None, req, on_outside (fun o => o ++ [name]) s).

(** An option that fails. *)
Definition failing (msg : string) : RequestOption :=
  fun req s => (Done (Some (ErrForeign msg)), req, s).

Definition client (t : httpClient) (global : list RequestOption) : Client :=
  NewClient "http://host" [WithHttpClient t; WithRequestOptions global].

Definition someHeaders : gmap string (list string) :=
  {[ "Accept" := ["application/json"] ]}.

(** A request as [newRequest] builds it. *)
Definition fresh : http.Request :=
  {| http.Method := "GET"; http.URL := "http://host/api/v1/groups";
     http.Header := Some ∅ |}.

(** The second global option fails. *)
Definition run_option_fails : result error * Store * list Event :=
  DoRequest (client (answering groups) [marking "A"; failing "B"]) tt
    "GET" "/api/v1/groups" (RawStringParser (Some 1%nat)) [marking "C"] s0.

(** The server answers 404 and the text not found. *)
Definition run_not_found : result error * Store * list Event :=
  DoRequest (client (answering notFound) []) tt
    "GET" "/api/v1/users" (JsonParser (Some 1%nat)) [] s0.

(** The server answers 200 and a body, three options are applied. *)
Definition run_groups : result error * Store * list Event :=
  DoRequest (client (answering groups) [marking "A"; marking "B"]) tt
    "GET" "/api/v1/groups" (RawStringParser (Some 1%nat)) [marking "C"] s0.

(** The same call with a nil destination. *)
Definition run_nil_destination : result error * Store * list Event :=
  DoRequest (client (answering groups) [marking "A"; marking "B"]) tt
    "GET" "/api/v1/groups" (parser_of (RawString None)) [marking "C"] s0.

(** A client with basic credentials, as [RequestBasicAuthOption]
    installs them. *)
Definition authClient (t : httpClient) : Client :=
  NewClient "http://host"
    [WithHttpClient t; RequestBasicAuthOption "Aladdin" "open sesame"].

Definition credentials : gmap string (list string) :=
  {[ "Authorization" := ["Basic QWxhZGRpbjpvcGVuIHNlc2FtZQ=="] ]}.

(** A call of that client, without and with a Headers option. *)
Definition run_with_credentials : result error * Store * list Event :=
  DoRequest (authClient (answering groups)) tt
    "GET" "/api/v1/groups" (RawStringParser (Some 1%nat)) [] s0.

Definition run_headers_override : result error * Store * list Event :=
  DoRequest (authClient (answering groups)) tt
    "GET" "/api/v1/groups" (RawStringParser (Some 1%nat))
    [WithHeadersOpt (Some someHeaders)] s0.

(** The client of the example program: it names itself in every
    request and logs what it sends and receives. *)
Definition exampleClient (t : httpClient) : Client :=
  NewClient "http://host"
    [WithHttpClient t; WithDebug true;
     WithRequestOptions [addHeaderRequestOption "User-Agent" "my-api-client"]].

Definition run_example : result error * Store * list Event :=
  DoRequestNoBody (exampleClient (answering created)) tt
    "DELETE" "/api/v1/groups?id=test" [] s0.

(** A deletion answered by 201 and an empty body. *)
Definition run_delete : result error * Store * list Event :=
  DoRequestNoBody (client (answering created) []) tt
    "DELETE" "/api/v1/groups?id=test" [] s0.

End Scenario.

(** ** The configuration functions, by name *)

Section Settings.

Context {U : Universe} {L : Library}.

(** A call of one of the six configuration functions. *)
Inductive Setting :=
| SetHttpClient (client : httpClient)
| SetLog (l : option Logger)
| AddRequestOptions (fn : list RequestOption)
| BasicAuth (username password : string)
| SetDebug (b : bool)
| SetValidator (v : ValidateResponse).

Definition option_of (x : Setting) : Option :=
  match x with
  | SetHttpClient client => WithHttpClient client
  | SetLog l => WithLog l
  | AddRequestOptions fn => WithRequestOptions fn
  | BasicAuth username password => RequestBasicAuthOption username password
  | SetDebug b => WithDebug b
  | SetValidator v => WithResponseValidator v
  end.

(** The request options a setting adds to the chain. *)
Definition contributed (x : Setting) : list RequestOption :=
  match x with
  | AddRequestOptions fn => fn
  | BasicAuth username password => [basicAuthRequestOption username password]
  | _ => []
  end.

Definition sets_debug (x : Setting) : bool :=
  match x with SetDebug _ => true | _ => false end.
Definition sets_log (x : Setting) : bool :=
  match x with SetLog _ => true | _ => false end.
Definition sets_httpClient (x : Setting) : bool :=
  match x with SetHttpClient _ => true | _ => false end.
Definition sets_validator (x : Setting) : bool :=
  match x with SetValidator _ => true | _ => false end.

(** The client with its global chain emptied. *)
Definition without_chain (c : Client) : Client :=
  {| endpoint := endpoint c; log := log c; httpClient_ := httpClient_ c;
     requestOptionsChain := [];
     validateResponseFn := validateResponseFn c; debug := debug c |}.

End Settings.

(** ** The stages of a call *)

Section Stages.

Context {U : Universe} {L : Library}.

(** What [DoRequest] does once the transport has answered with a
    response: the deferred closing and, before it, the log, the
    validator and the parser. *)
Definition respond (c : Client) (parser : ResponseParser) (resp : http.Response)
  : M error :=
  defer (emit EvClose)
    (bind (if debug c then logResponseM resp (log c) else ret resp)
       (fun resp =>
          bind (call_validator (validateResponseFn c) resp)
            (fun x => let '(e, resp) := x in
               match e with
               | Some err => ret (Some err)
               | None => call_parser parser resp
               end))).

(** What [DoRequest] does once both chains of options have been applied:
    the log, the dispatch and the rest. *)
Definition dispatch (c : Client) (parser : ResponseParser) (req : http.Request)
  : M error :=
  bind (if debug c then logRequestM req (log c) else ret tt)
    (fun _ =>
       bind (send (httpClient_ c) req)
         (fun x => let '(resp, err) := x in
            match err, resp with
            | Some err, _ => ret (Some err)
            | None, None => panic nil_dereference
            | None, Some resp => respond c parser resp
            end)).

(** The answer and the store of a run, without its events. *)
Definition outcome {A : Type} (r : result A * Store * list Event)
  : result A * Store := r.1.

(** The event shows a response whose stream library code had closed
    before the response was handed on. *)
Definition shows_closed (e : Event) : bool :=
  match e with
  | EvValidate resp _ | EvParse resp _ => http.Closed resp
  | _ => false
  end.

(** The calls of Close on the stream of the transport that a trace
    shows: the one made by a dump before the response was validated or
    parsed, and the deferred ones of [DoRequest]. *)
Definition closes (t : list Event) : nat :=
  ((if existsb shows_closed t then 1 else 0) + count is_close t)%nat.

(** The events other than those of the options. *)
Definition not_option (e : Event) : bool := negb (is_option e).

(** The event shows where a panic with the message came from: a
    collaborator that panicked with it, or a transport that returned
    neither a response nor an error. *)
Definition blames (e : Event) (msg : string) : Prop :=
  match e with
  | EvOption _ _ (Panicked m) | EvSend _ (Panicked m)
  | EvValidate _ (Panicked m) | EvParse _ (Panicked m) => m = msg
  | EvSend _ (Done (None, None)) => msg = nil_dereference
  | _ => False
  end.

(** A destination that the decoder refuses whatever the body holds: it
    returns an error and writes nothing.  That is what the decoder of
    encoding/json does with a nil pointer, which inside an interface is
    not the nil that [JsonParser] tests for. *)
Definition refused_by_decoder (d : Destination) : Prop :=
  forall b s, exists e b', Decode b d s = (Some e, b', s).

(** The parser is built over a nil destination: a nil pointer, or for
    the JSON parser the nil interface or a nil pointer inside an
    interface. *)
Definition over_nil (p : Delivering) : Prop :=
  nil_destination p = true \/ exists d, p = Json (Some d) /\ refused_by_decoder d.

(** An option that returns an error whatever the request and the store. *)
Definition always_fails (opt : RequestOption) : Prop :=
  forall req s, exists e, (opt (Some req) s).1.1 = Done (Some e).

End Stages.

(** ** Header sets as objects

    In Go a header set is a map, and a map is a reference: the
    assignment of a header set to the header field of a request makes
    the request share the map of the caller, and what is written through
    the request afterwards is written into that map.  The model above
    holds header sets by value, which is the same for one application of
    an option.  Here the maps live in a heap and a request holds the
    address of its map; the two options that touch the headers and the
    loops over the chains are embedded once more over such requests. *)

Module ByReference.

(** The header set at an address. *)
Definition content (heap : gmap nat (gmap string (list string))) (l : nat)
  : gmap string (list string) :=
  default ∅ (heap !! l).

Record Request := mkRequest {
  Method : string;
  URL : string;
  Header : option nat
}.

Definition RequestOption : Type :=
  option Request -> gmap nat (gmap string (list string)) ->
  result error * option Request * gmap nat (gmap string (list string)).

(** WithHeadersOpt add headers to a request *)
Definition WithHeadersOpt (header : option nat) : RequestOption :=
  fun req heap =>
    match header, req with
    | Some l, Some r =>
        (Done None,
         Some {| Method := Method r; URL := URL r; Header := Some l |}, heap)
    | _, _ =>
        (Done (Some (Errorf "WithHeadersOpt error: %v | %v"
                       [printed_of req; printed_of header])), req, heap)
    end.

(** The closure that [RequestBasicAuthOption] adds to the chain: it sets
    the Authorization entry of the map the request holds. *)
Definition basicAuthRequestOption (username password : string) : RequestOption :=
  fun req heap =>
    match req with
    | None => (Panicked nil_dereference, None, heap)
    | Some r =>
        match Header r with
        | None => (Panicked nil_map_assignment, Some r, heap)
        | Some l =>
            (Done None, Some r,
             <[l := <["Authorization" :=
                       ["Basic " +:+ http.basicAuth username password]]>
                      (content heap l)]> heap)
        end
    end.

(** One of the two loops of [DoRequest] over a chain of options. *)
Fixpoint apply_options (opts : list RequestOption) (req : Request)
    (heap : gmap nat (gmap string (list string)))
  : result (error * Request) * gmap nat (gmap string (list string)) :=
  match opts with
  | [] => (Done (None, req), heap)
  | opt :: rest =>
      match opt (Some req) heap with
      | (Done None, req', heap') => apply_options rest (default req req') heap'
      | (Done (Some err), req', heap') =>
          (Done (Some (ErrorfW "failed to apply global request option: %w" err),
                 default req req'), heap')
      | (Panicked msg, _, heap') => (Panicked msg, heap')
      end
  end.

(** The two loops one after the other: the global chain, then the
    options of the call. *)
Definition apply_chains (global options : list RequestOption)
    (req : Request) (heap : gmap nat (gmap string (list string)))
  : result (error * Request) * gmap nat (gmap string (list string)) :=
  match apply_options global req heap with
  | (Done (None, req1), heap1) => apply_options options req1 heap1
  | stopped => stopped
  end.

(** The headers a request carries: what its map holds. *)
Definition headers (heap : gmap nat (gmap string (list string))) (req : Request)
  : option (gmap string (list string)) :=
  content heap <$> Header req.

(** The request as the model by value has it. *)
Definition view (heap : gmap nat (gmap string (list string))) (req : Request)
  : http.Request :=
  {| http.Method := Method req; http.URL := URL req;
     http.Header := headers heap req |}.

(** What the Headers option over the map at [l] is said to do after an
    option [opt]: it leaves the headers of the request equal to what the
    map held before [opt] ran, the same as when it is applied alone. *)
Definition discards (opt : RequestOption) (l : nat) (req : Request)
    (heap : gmap nat (gmap string (list string)))
  : Prop :=
  forall e req1 heap1,
    opt (Some req) heap = (Done e, Some req1, heap1) ->
    exists after alone,
      WithHeadersOpt (Some l) (Some req1) heap1 = (Done None, Some after, heap1) /\
      WithHeadersOpt (Some l) (Some req) heap = (Done None, Some alone, heap) /\
      headers heap1 after = Some (content heap l) /\
      headers heap1 after = headers heap alone.

(** A caller's header set, at address 1, and two requests: one with a map
    of its own at address 0, as request construction makes it, and one
    that holds the caller's map, as the Headers option leaves it. *)
Definition accept : gmap string (list string) :=
  {[ "Accept"%string := ["application/json"%string] ]}.

Definition heap0 : gmap nat (gmap string (list string)) :=
  {[ 0%nat := ∅; 1%nat := accept ]}.

Definition built : Request :=
  {| Method := "GET"; URL := "http://host/api/v1/groups"; Header := Some 0%nat |}.

Definition sharing : Request :=
  {| Method := "GET"; URL := "http://host/api/v1/groups"; Header := Some 1%nat |}.

End ByReference.

(** * Part II: properties *)

(** ** Base64 and basic authentication *)

Example basicAuth_rfc7617 :
  http.basicAuth "Aladdin" "open sesame" = "QWxhZGRpbjpvcGVuIHNlc2FtZQ=="%string.
Proof. reflexivity. Qed.

Example EncodeToString_padding :
  base64.EncodeToString (list_byte_of_string "f") = "Zg=="%string /\
  base64.EncodeToString (list_byte_of_string "fo") = "Zm8="%string /\
  base64.EncodeToString (list_byte_of_string "foo") = "Zm9v"%string /\
  base64.EncodeToString (list_byte_of_string "foob") = "Zm9vYg=="%string.
Proof. repeat split; reflexivity. Qed.

Lemma SetBasicAuth_returns username password req h :
  http.Header req = Some h ->
  http.SetBasicAuth username password req =
    Done (http.set_Header req
            (Some (<["Authorization" :=
                      ["Basic " +:+ http.basicAuth username password]]> h))).
Proof. intros Hh. unfold http.SetBasicAuth. now rewrite Hh. Qed.

(** ** Events and counting *)

Lemma count_app kind (t1 t2 : list Event) :
  count kind (t1 ++ t2) = (count kind t1 + count kind t2)%nat.
Proof. unfold count. now rewrite List.filter_app, length_app. Qed.

Lemma count_cons kind e (t : list Event) :
  count kind (e :: t) = ((if kind e then 1 else 0) + count kind t)%nat.
Proof. unfold count. simpl. now destruct (kind e). Qed.

Lemma count_nil kind : count kind [] = 0%nat.
Proof. reflexivity. Qed.

Arguments count : simpl never.

Lemma count_successes kind (t : list Event) :
  Forall success t ->
  (forall ch i o, kind (EvOption ch i o) = false) ->
  count kind t = 0%nat.
Proof.
  intros Ht Hkind. induction Ht as [|e t [ch [i ->]] _ IH]; [reflexivity|].
  rewrite count_cons, Hkind, IH. reflexivity.
Qed.

Lemma success_in e (t : list Event) :
  Forall success t -> In e t -> exists ch i, e = EvOption ch i (Done None).
Proof.
  intros Ht Hin. rewrite Forall_forall in Ht.
  now apply list_elem_of_In, Ht in Hin.
Qed.

(** ** The shape of every run *)

Ltac shape_step :=
  cbn; rewrite ?app_nil_r, ?app_nil_l; rewrite ?app_assoc.

Section Shapes.

Context {U : Universe} {L : Library}.

Lemma successes_success ch i k : Forall success (successes ch i k).
Proof.
  unfold successes. apply Forall_forall. intros e He.
  apply list_elem_of_In, in_map_iff in He. destruct He as (j & <- & _).
  now exists ch, j.
Qed.

Lemma Applied_success n m pre stop : Applied n m pre stop -> Forall success pre.
Proof.
  intros []; repeat apply Forall_app_2; apply successes_success.
Qed.

(** A loop over a chain stops at the first option that does not return
    nil; every option before it returned nil. *)
Lemma apply_options_shape ch opts :
  forall i req s,
    match apply_options ch i opts req s with
    | (Done (None, _), _, t) => t = successes ch i (length opts)
    | (Done (Some err, _), _, t) =>
        exists k e,
          (k < length opts)%nat /\
          t = successes ch i k ++ [EvOption ch (i + k) (Done (Some e))] /\
          err = wrapped_option_error e
    | (Panicked msg, _, t) =>
        exists k,
          (k < length opts)%nat /\
          t = successes ch i k ++ [EvOption ch (i + k) (Panicked msg)]
    end.
Proof.
  induction opts as [|opt rest IH]; intros i req s; simpl.
  - reflexivity.
  - unfold bind, call_option.
    destruct (call opt req s) as [[o req'] s'] eqn:Ecall.
    destruct o as [[e|]|msg].
    + simpl. exists 0%nat, e. rewrite Nat.add_0_r. repeat split. lia.
    + specialize (IH (S i) req' s').
      destruct (apply_options ch (S i) rest req' s') as [[r s2] t2].
      destruct r as [[[err|] req2]|msg].
      * destruct IH as (k & e & Hk & -> & ->).
        exists (S k), e. rewrite <- Nat.add_succ_comm. repeat split. lia.
      * now subst t2.
      * destruct IH as (k & Hk & ->).
        exists (S k). rewrite <- Nat.add_succ_comm. split; [lia | reflexivity].
    + exists 0%nat. rewrite Nat.add_0_r. split; [lia | reflexivity].
Qed.

Lemma call_outcome_of (parser : ResponseParser) resp s o resp' s' :
  call parser resp s = (o, resp', s') -> outcome_of parser resp o.
Proof.
  unfold call. intros Hc. exists s.
  destruct (parser (Some resp) s) as [[o' p'] s'']. now injection Hc as -> _ _.
Qed.

Lemma call_accepted_by (v : ValidateResponse) resp s resp' s' :
  call v resp s = (Done None, resp', s') -> accepted_by v resp resp'.
Proof.
  unfold call. intros Hc. exists s.
  destruct (v (Some resp) s) as [[o' p'] s'']. injection Hc as Ho Hr _.
  cbn. now split.
Qed.

Lemma validated_shape c parser resp s :
  match
    bind (call_validator (validateResponseFn c) resp)
      (fun x => let '(e, resp) := x in
         match e with
         | Some err => ret (Some err)
         | None => call_parser parser resp
         end) s
  with
  | (o, _, t) =>
      Tail (accepted_by (validateResponseFn c)) (outcome_of parser) o (t ++ [EvClose])
  end.
Proof.
  unfold bind, call_validator, call_parser, ret.
  destruct (call (validateResponseFn c) resp s) as [[[[e|]|msg] resp2] s2] eqn:Ev;
    simpl; try constructor.
  destruct (call parser resp2 s2) as [[o resp3] s3] eqn:Ep; simpl.
  constructor; eauto using call_outcome_of, call_accepted_by.
Qed.

Lemma tail_shape c parser resp s :
  match
    defer (emit EvClose)
      (bind (if debug c then logResponseM resp (log c) else ret resp)
         (fun resp =>
            bind (call_validator (validateResponseFn c) resp)
              (fun x => let '(e, resp) := x in
                 match e with
                 | Some err => ret (Some err)
                 | None => call_parser parser resp
                 end))) s
  with
  | (o, _, t) => Tail (accepted_by (validateResponseFn c)) (outcome_of parser) o t
  end.
Proof.
  pose proof (validated_shape c parser) as Hv.
  set (body := fun resp : http.Response =>
         bind (call_validator (validateResponseFn c) resp) _) in *.
  unfold defer, bind, emit.
  destruct (debug c).
  - unfold logResponseM.
    destruct (logResponse resp (log c) s) as [[[[]|msg] resp1] s1].
    + specialize (Hv resp1 s1). change (bind _ _ s1) with (body resp1 s1) in Hv.
      now destruct (body resp1 s1) as [[o sf] tf].
    + constructor.
  - specialize (Hv resp s). change (bind _ _ s) with (body resp s) in Hv.
    unfold ret. now destruct (body resp s) as [[o sf] tf].
Qed.

Lemma DoRequest_shape_of_run c ctx method path parser options s :
  match DoRequest c ctx method path parser options s with
  | (o, _, t) =>
      Shape (length (requestOptionsChain c)) (length options)
        (built_by c ctx method path options s)
        (accepted_by (validateResponseFn c)) (outcome_of parser) o t
  end.
Proof.
  unfold DoRequest.
  destruct (NewRequestWithContext ctx method (endpoint c +:+ path))
    as [req|err] eqn:Enew; [|apply NotBuilt].
  unfold bind at 1.
  pose proof (apply_options_shape Global (requestOptionsChain c) 0 req s) as Hg.
  destruct (apply_options Global 0 (requestOptionsChain c) req s)
    as [[rg sg] tg] eqn:Eg.
  destruct rg as [[[err|] req1]|msg].
  - destruct Hg as (k & e & Hk & -> & ->).
    shape_step. apply OptionFailed. now apply StoppedGlobal.
  - unfold bind at 1. subst tg.
    pose proof (apply_options_shape PerCall options 0 req1 sg) as Hp.
    destruct (apply_options PerCall 0 options req1 sg) as [[rp sp] tp] eqn:Ep.
    destruct rp as [[[err|] req2]|msg].
    + destruct Hp as (k & e & Hk & -> & ->).
      shape_step. apply OptionFailed. now apply StoppedPerCall.
    + subst tp.
      pose proof (AllApplied (length (requestOptionsChain c)) (length options))
        as Hopts.
      assert (Hsent : built_by c ctx method path options s req2)
        by (unfold built_by; eauto 10).
      unfold bind at 1.
      assert (Hlog : exists o s', (if debug c then logRequestM req2 (log c) else ret tt) sp
                                  = (o, s', [])).
      { destruct (debug c); unfold logRequestM, ret.
        - destruct (logRequest req2 (log c) sp) as [o s']. now exists o, s'.
        - now exists (Done tt), sp. }
      destruct Hlog as (o & s' & ->).
      destruct o as [[]|msg].
      * unfold bind at 1, send.
        destruct (Do (httpClient_ c) req2 s') as [o s2].
        destruct o as [[resp err]|msg].
        -- destruct err as [err|].
           ++ shape_step. now apply SendFailed.
           ++ destruct resp as [resp|].
              ** pose proof (tail_shape c parser resp s2) as Ht.
                 match type of Ht with
                 | match ?x with _ => _ end => destruct x as [[o sf] tf]
                 end.
                 shape_step. now apply Answered.
              ** shape_step. now apply SentNothingBack.
        -- shape_step. now apply SendPanicked.
      * shape_step. now apply LogRequestPanicked.
    + destruct Hp as (k & Hk & ->).
      shape_step. apply OptionPanicked. now apply StoppedPerCall.
  - destruct Hg as (k & Hk & ->). shape_step.
    apply OptionPanicked. now apply StoppedGlobal.
Qed.

Theorem DoRequest_shape c ctx method path parser options s :
  let run := DoRequest c ctx method path parser options s in
  Shape (length (requestOptionsChain c)) (length options)
    (built_by c ctx method path options s)
    (accepted_by (validateResponseFn c)) (outcome_of parser)
    (answer run) (trace run).
Proof.
  intros run. subst run.
  pose proof (DoRequest_shape_of_run c ctx method path parser options s) as Hs.
  now destruct (DoRequest c ctx method path parser options s) as [[o sf] t].
Qed.

End Shapes.

(** ** The default validator *)

Section Validator.

Context {U : Universe} {L : Library}.

Lemma ResponseValidator_accepts (r : http.Response) (s : Store) :
  http.StatusCode r <= 300 ->
  ResponseValidator (Some r) s = (Done None, Some r, s).
Proof.
  intros Hle. unfold ResponseValidator.
  destruct (Z.gtb_spec (http.StatusCode r) 300); [lia | reflexivity].
Qed.

Lemma ResponseValidator_rejects (r : http.Response) (s : Store) :
  http.StatusCode r > 300 ->
  ResponseValidator (Some r) s =
    (Done (Some
       match io.fault (http.Body r) with
       | Some err => ErrorfW "failed to read response body: %w" err
       | None =>
           ErrStatusCode
             {| Code := http.StatusCode r;
                Status := http.Status r;
                Body := string_of_list_byte (io.unread (http.Body r)) |}
       end),
     Some (http.set_Body r {| io.unread := []; io.fault := io.fault (http.Body r) |}),
     s).
Proof.
  intros Hgt. unfold ResponseValidator.
  destruct (Z.gtb_spec (http.StatusCode r) 300); [|lia].
  unfold ioutil.ReadAll. now destruct (io.fault (http.Body r)).
Qed.

(** C1.  The default validator rejects a response exactly when its status
    code is greater than 300: it accepts 300 and everything below, and
    leaves such a response untouched.  A status error it returns carries
    the status code and status text of the response, and as body the
    whole text the body stream held; it returns one whenever it rejects
    and the body can be read to its end. *)
Theorem ResponseValidator_boundary (r : http.Response) (s : Store) :
  let out := ResponseValidator (Some r) s in
  ((exists err, out.1.1 = Done (Some err)) <-> http.StatusCode r > 300) /\
  (out.1.1 = Done None <-> http.StatusCode r <= 300) /\
  (http.StatusCode r <= 300 -> out = (Done None, Some r, s)) /\
  (forall t, out.1.1 = Done (Some (ErrStatusCode t)) ->
     Code t = http.StatusCode r /\
     HTTPStatusCode t = http.StatusCode r /\
     Status t = http.Status r /\
     Body t = string_of_list_byte (io.unread (http.Body r))) /\
  (http.StatusCode r > 300 -> io.fault (http.Body r) = None ->
     out.1.1 =
       Done (Some (ErrStatusCode
         {| Code := http.StatusCode r;
            Status := http.Status r;
            Body := string_of_list_byte (io.unread (http.Body r)) |}))).
Proof.
  intros out. subst out.
  destruct (Z_gt_le_dec (http.StatusCode r) 300) as [Hgt|Hle].
  - rewrite (ResponseValidator_rejects r s Hgt). cbn.
    repeat split; intros; try lia; try discriminate; eauto.
    all: destruct (io.fault (http.Body r)); try discriminate.
    all: try match goal with
             | Heq : Done _ = Done _ |- _ => injection Heq as <-
             end; reflexivity.
  - rewrite (ResponseValidator_accepts r s Hle). cbn.
    repeat split; intros; try lia; try discriminate.
    destruct H as [err Herr]. discriminate.
Qed.

End Validator.

(** ** Request options *)

Section RequestOptions.

Context {U : Universe} {L : Library}.

Lemma WithHeadersOpt_nil header req s :
  header = None \/ req = None ->
  WithHeadersOpt header req s =
    (Done (Some (Errorf "WithHeadersOpt error: %v | %v"
                   [printed_of req; printed_of header])), req, s).
Proof.
  intros [-> | ->]; unfold WithHeadersOpt; [reflexivity | now destruct header].
Qed.

Lemma call_WithHeadersOpt h req s :
  call (WithHeadersOpt (Some h)) req s = (Done None, http.set_Header req (Some h), s).
Proof. reflexivity. Qed.

(** C6.  Applied to a request with a header set [h], neither of them nil,
    the Headers option returns nil and leaves the request with exactly
    [h] as its headers: what the request carried before is gone, also
    under the keys [h] does not mention.  Method and URL stay, and so
    does everything outside the request. *)
Theorem WithHeadersOpt_replaces_headers
    (h : gmap string (list string)) (req : http.Request) (s : Store) :
  exists req',
    WithHeadersOpt (Some h) (Some req) s = (Done None, Some req', s) /\
    http.Header req' = Some h /\
    (forall old key, http.Header req = Some old -> h !! key = None ->
       exists now, http.Header req' = Some now /\ now !! key = None) /\
    http.Method req' = http.Method req /\
    http.URL req' = http.URL req.
Proof.
  exists (http.set_Header req (Some h)). repeat split.
  intros old key _ Hkey. now exists h.
Qed.

Lemma call_basicAuthRequestOption username password req h s :
  http.Header req = Some h ->
  call (basicAuthRequestOption username password) req s =
    (Done None,
     http.set_Header req
       (Some (<["Authorization" :=
                 ["Basic " +:+ http.basicAuth username password]]> h)),
     s).
Proof.
  intros Hh. unfold call, basicAuthRequestOption.
  now rewrite (SetBasicAuth_returns _ _ _ _ Hh).
Qed.

End RequestOptions.

(** ** Parsers *)

Section Parsers.

Context {U : Universe} {L : Library}.

Lemma logResponse_with_logger resp l s :
  exists resp' s', logResponse resp (Some l) s = (Done tt, resp', s').
Proof.
  unfold logResponse. destruct (DumpResponse resp) as [[dump|err] resp']; eauto.
Qed.

Lemma NoBodyParser_succeeds log (r : http.Response) (s : Store) :
  (NoBodyParser log (Some r) s).1.1 = Done None.
Proof.
  unfold NoBodyParser.
  destruct (negb (http.ContentLength r =? 0)); [|reflexivity].
  destruct log as [l|]; cbn; [|reflexivity].
  destruct (logResponse_with_logger r l s) as (resp' & s' & ->). reflexivity.
Qed.

Lemma delivering_parser_rejects_nil (p : Delivering) resp (s : Store) :
  resp = None \/ nil_destination p = true ->
  parser_of p resp s = (Done (Some (configuration_error p resp)), resp, s).
Proof.
  intros [-> | Hnil].
  - destruct p as [[d|]|[d|]|[d|]]; reflexivity.
  - destruct p as [[d|]|[d|]|[d|]]; try discriminate; now destruct resp.
Qed.

(** C5.  On a nil response each of the JSON, raw-string and raw-bytes
    parsers returns its configuration error, whatever the destination,
    and changes nothing: they test the response against nil first.  The
    no-body parser has no such test: on a nil response it reads the
    content length of the response and panics, whatever its logger. *)
Theorem NoBodyParser_misses_nil_check (log : option Logger) (s : Store) :
  (forall (p : Delivering) (resp : option http.Response),
      resp = None ->
      parser_of p resp s = (Done (Some (configuration_error p resp)), resp, s) /\
      exists format printed_dst,
        configuration_error p resp = Errorf format [PrintedNil; printed_dst]) /\
  NoBodyParser log None s = (Panicked nil_dereference, None, s).
Proof.
  split; [|reflexivity].
  intros p resp ->. split; [apply delivering_parser_rejects_nil; now left|].
  destruct p as [dst|dst|dst]; eexists _, _; reflexivity.
Qed.

End Parsers.

(** ** The pipeline *)

(** Takes a run of known shape apart, one goal for each shape. *)
Ltac inv_shape Hs :=
  inversion Hs; subst;
  repeat match goal with
         | H : Applied _ _ _ _ |- _ => apply Applied_success in H
         | H : Tail _ _ _ _ |- _ => inversion H; subst; clear H
         end.

(** Splits a membership in a trace of known shape into its cases and
    drops the impossible ones. *)
Ltac in_trace H :=
  repeat first
    [ apply in_app_or in H; destruct H as [H|H]
    | apply in_inv in H; destruct H as [H|H]
    | apply in_nil in H; destruct H ];
  try discriminate;
  try match goal with
      | Hpre : Forall success ?pre |- _ =>
          match type of H with
          | In ?e pre =>
              let ch := fresh "ch" in
              let i := fresh "i" in
              let Heq := fresh "Heq" in
              destruct (success_in e pre Hpre H) as (ch & i & Heq);
              try discriminate Heq; try subst e
          end
      end.

(** Evaluates the counts of a trace of known shape. *)
Ltac counts :=
  rewrite ?count_app, ?count_cons, ?count_nil;
  repeat match goal with
         | Hpre : Forall success ?pre |- context [count ?kind ?pre] =>
             rewrite (count_successes kind pre Hpre) by reflexivity
         end;
  cbn; try reflexivity; try lia.

(** Closes a goal about a run that stopped at an option: the options
    shown are all there is, and nothing was sent. *)
Ltac no_send :=
  split;
  [ reflexivity
  | let Hin := fresh "Hin" in
    intros ? ? Hin;
    repeat (destruct Hin as [Hin|Hin]; try discriminate Hin);
    contradiction ].

Section PipelineProperties.

Context {U : Universe} {L : Library}.

(** The convenience wrappers only choose the method and the parser. *)
Lemma wrappers_forward c ctx method path intf out options :
  GetJson c ctx path intf options =
    DoRequest c ctx "GET" path (JsonParser intf) options /\
  DoRequestJson c ctx method path intf options =
    DoRequest c ctx method path (JsonParser intf) options /\
  Get c ctx path options =
    DoRequest c ctx "GET" path (NoBodyParser (log c)) options /\
  DoRequestNoBody c ctx method path options =
    DoRequest c ctx method path (NoBodyParser (log c)) options /\
  DoRequestString c ctx method path out options =
    DoRequest c ctx method path (RawStringParser out) options.
Proof. repeat split. Qed.

Lemma last_after_send (pre : list Event) e tail x :
  last (e :: tail) = Some x -> last (pre ++ e :: tail) = Some x.
Proof.
  intros Hl. rewrite last_app. now rewrite Hl.
Qed.

(** C7.  If an option of the global chain or of the per-call chain
    returns an error during a call, then that is the last thing the call
    does: it returns the error wrapped, and it never sends anything,
    validates, parses or closes. *)
Theorem option_error_stops_before_send
    c ctx method path parser options s ch i e :
  let run := DoRequest c ctx method path parser options s in
  In (EvOption ch i (Done (Some e))) (trace run) ->
  answer run =
    Done (Some (ErrorfW "failed to apply global request option: %w" e)) /\
  last (trace run) = Some (EvOption ch i (Done (Some e))) /\
  count is_send (trace run) = 0%nat /\
  count is_validate (trace run) = 0%nat /\
  count is_parse (trace run) = 0%nat /\
  count is_close (trace run) = 0%nat.
Proof.
  intros run. subst run.
  pose proof (DoRequest_shape c ctx method path parser options s) as Hs.
  cbv zeta in Hs.
  destruct (DoRequest c ctx method path parser options s) as [[o sf] t].
  unfold answer, trace in *. cbn in *. intros Hin.
  inv_shape Hs; in_trace Hin.
  injection Hin as -> -> ->.
  split; [reflexivity|]. split; [apply last_snoc|].
  repeat split; counts.
Qed.

(** The deferred Close.  In every call in which the transport returns a
    response (and no error), [DoRequest] itself calls Close on the body
    exactly once, and that is the last thing it does: its Close comes
    after the validator and the parser have run, whatever they answer or
    whether they panic.  What library code does to the stream on the way
    is not counted here. *)
Theorem body_closed_exactly_once
    c ctx method path parser options s req resp :
  let run := DoRequest c ctx method path parser options s in
  In (EvSend req (Done (Some resp, None))) (trace run) ->
  count is_close (trace run) = 1%nat /\
  last (trace run) = Some EvClose /\
  exists before,
    trace run = before ++ [EvClose] /\
    count is_close before = 0%nat /\
    (forall e, is_validate e = true \/ is_parse e = true ->
       In e (trace run) -> In e before).
Proof.
  intros run. subst run.
  pose proof (DoRequest_shape c ctx method path parser options s) as Hs.
  cbv zeta in Hs.
  destruct (DoRequest c ctx method path parser options s) as [[o sf] t].
  unfold answer, trace in *. cbn in *. intros Hin.
  inv_shape Hs; in_trace Hin.
  all: split; [counts|].
  all: split; [apply last_after_send; reflexivity|].
  - exists (pre ++ [EvSend req0 (Done (Some resp0, None))]).
    rewrite <- app_assoc. repeat split; [counts|].
    intros e [He|He] Hine; in_trace Hine; subst; discriminate He.
  - exists (pre ++ [EvSend req0 (Done (Some resp0, None));
                    EvValidate resp1 (Panicked msg)]).
    rewrite <- app_assoc. repeat split; [counts|].
    intros e [He|He] Hine; in_trace Hine; subst; try discriminate He.
    apply in_or_app. right. cbn. tauto.
  - exists (pre ++ [EvSend req0 (Done (Some resp0, None));
                    EvValidate resp1 (Done (Some err))]).
    rewrite <- app_assoc. repeat split; [counts|].
    intros e [He|He] Hine; in_trace Hine; subst; try discriminate He.
    apply in_or_app. right. cbn. tauto.
  - exists (pre ++ [EvSend req0 (Done (Some resp0, None));
                    EvValidate resp1 (Done None); EvParse resp' o]).
    rewrite <- app_assoc. repeat split; [counts|].
    intros e [He|He] Hine; in_trace Hine; subst; try discriminate He.
    all: apply in_or_app; right; cbn; tauto.
Qed.

(** C3.  In every call that reaches the validator, the validator is
    called once, and then exactly one of three things happens.  If it
    returns an error, the call returns that error and the parser is not
    called.  If it returns nil, the parser is called exactly once, with
    the response as the validator left it, and the call returns what
    the parser returns.  If it panics, so does the call, and the parser
    is not called. *)
Theorem validator_decides_parsing
    c ctx method path parser options s resp o :
  let run := DoRequest c ctx method path parser options s in
  In (EvValidate resp o) (trace run) ->
  count is_validate (trace run) = 1%nat /\
  match o with
  | Done (Some err) =>
      answer run = Done (Some err) /\ count is_parse (trace run) = 0%nat
  | Done None =>
      count is_parse (trace run) = 1%nat /\
      exists resp' po,
        In (EvParse resp' po) (trace run) /\
        accepted_by (validateResponseFn c) resp resp' /\
        outcome_of parser resp' po /\
        answer run = po
  | Panicked msg =>
      answer run = Panicked msg /\ count is_parse (trace run) = 0%nat
  end.
Proof.
  intros run. subst run.
  pose proof (DoRequest_shape c ctx method path parser options s) as Hs.
  cbv zeta in Hs.
  destruct (DoRequest c ctx method path parser options s) as [[a sf] t].
  unfold answer, trace in *. cbn in *. intros Hin.
  inv_shape Hs; in_trace Hin.
  all: injection Hin as <- <-; cbv beta iota.
  all: split; [counts|].
  - split; [reflexivity | counts].
  - split; [reflexivity | counts].
  - split; [counts|]. exists resp', a. repeat split; try assumption.
    apply in_or_app. right. cbn. tauto.
Qed.

(** C10.  Given a response, the no-body parser returns nil, whatever the
    body and the content length and whether or not it has a logger.  So
    in a call of [DoRequestNoBody] or [Get] the parser, when it is
    called, returns nil, and so does the call: whenever the validator
    accepts, the call succeeds. *)
Theorem NoBodyParser_never_fails c ctx method path options s :
  (forall log (r : http.Response) (s' : Store),
      (NoBodyParser log (Some r) s').1.1 = Done None) /\
  (let run := DoRequestNoBody c ctx method path options s in
   (forall resp o, In (EvParse resp o) (trace run) ->
      o = Done None /\ answer run = Done None) /\
   (forall resp, In (EvValidate resp (Done None)) (trace run) ->
      answer run = Done None)) /\
  (let run := Get c ctx path options s in
   (forall resp o, In (EvParse resp o) (trace run) ->
      o = Done None /\ answer run = Done None) /\
   (forall resp, In (EvValidate resp (Done None)) (trace run) ->
      answer run = Done None)).
Proof.
  assert (Hall : forall method',
    let run := DoRequest c ctx method' path (NoBodyParser (log c)) options s in
    (forall resp o, In (EvParse resp o) (trace run) ->
       o = Done None /\ answer run = Done None) /\
    (forall resp, In (EvValidate resp (Done None)) (trace run) ->
       answer run = Done None)).
  { intros method' run. subst run.
    pose proof (DoRequest_shape c ctx method' path (NoBodyParser (log c)) options s)
      as Hs.
    cbv zeta in Hs.
    destruct (DoRequest c ctx method' path (NoBodyParser (log c)) options s)
      as [[a sf] t].
    unfold answer, trace in *. cbn in *.
    split; [intros resp o Hin | intros resp Hin].
    all: inv_shape Hs; in_trace Hin.
    all: match goal with
         | Hp : outcome_of _ _ _ |- _ =>
             destruct Hp as [sp Hp]; rewrite NoBodyParser_succeeds in Hp
         end.
    - injection Hin as -> ->. now subst.
    - now subst. }
  split; [apply NoBodyParser_succeeds|].
  split; [apply (Hall method) | apply (Hall http.MethodGet)].
Qed.

(** Whatever the parser, a call does the same up to the parser's turn:
    apart from the parser's own event, two calls that differ in the
    parser alone show the same events. *)
Lemma DoRequest_apart_from_parser c ctx method path parser parser' options s :
  List.filter (fun e => negb (is_parse e))
    (trace (DoRequest c ctx method path parser options s)) =
  List.filter (fun e => negb (is_parse e))
    (trace (DoRequest c ctx method path parser' options s)).
Proof.
  unfold DoRequest, trace.
  destruct (NewRequestWithContext ctx method (endpoint c +:+ path)) as [req|err];
    [|reflexivity].
  unfold bind, send, defer, emit, call_validator, call_parser,
    logRequestM, logResponseM, ret, panic.
  repeat match goal with
         | |- context [match ?x with _ => _ end] =>
             lazymatch x with
             | context [match _ with _ => _ end] => fail
             | _ => destruct x
             end
         end;
    cbn; rewrite ?List.filter_app; cbn; reflexivity.
Qed.

Lemma applied_app t1 t2 : applied (t1 ++ t2) = applied t1 ++ applied t2.
Proof. apply flat_map_app. Qed.

Lemma applied_successes ch i k : applied (successes ch i k) = map (pair ch) (seq i k).
Proof.
  unfold successes. revert i. induction k as [|k IH]; intros i; [reflexivity|].
  cbn. now rewrite <- IH.
Qed.

Lemma declared_global_prefix k n m :
  (k <= n)%nat -> map (pair Global) (seq 0 k) = firstn k (declared n m).
Proof.
  intros Hk. unfold declared.
  rewrite take_app_le by (rewrite length_map, length_seq; lia).
  now rewrite firstn_map, take_seq, Nat.min_l by lia.
Qed.

Lemma declared_percall_prefix k n m :
  (k <= m)%nat ->
  map (pair Global) (seq 0 n) ++ map (pair PerCall) (seq 0 k) =
    firstn (n + k) (declared n m).
Proof.
  intros Hk. unfold declared.
  rewrite take_app_add' by (now rewrite length_map, length_seq).
  now rewrite firstn_map, take_seq, Nat.min_l by lia.
Qed.

Lemma declared_whole n m : declared n m = firstn (n + m) (declared n m).
Proof.
  rewrite take_ge; [reflexivity|].
  unfold declared. rewrite length_app, !length_map, !length_seq. lia.
Qed.

(** In every call the options are applied in the order of declaration,
    the global chain first: the options applied are the first so many of
    that order, and all of them once a request is sent. *)
Lemma options_in_declaration_order c ctx method path parser options s :
  let run := DoRequest c ctx method path parser options s in
  let order := declared (length (requestOptionsChain c)) (length options) in
  (exists k, applied (trace run) = firstn k order) /\
  (forall req o, In (EvSend req o) (trace run) -> applied (trace run) = order).
Proof.
  intros run order. subst run order.
  pose proof (DoRequest_shape c ctx method path parser options s) as Hs.
  cbv zeta in Hs.
  destruct (DoRequest c ctx method path parser options s) as [[a sf] t].
  unfold answer, trace in *. cbn in *.
  inversion Hs as [ | pre ? ? ? Hpre | pre ? ? ? Hpre | pre ? Hpre | pre ? ? Hpre ?
                  | pre ? ? ? Hpre ? | pre ? Hpre ? | pre ? ? ? tail Hpre ? Ht ]; subst.
  1: { split; [now exists 0%nat|]. intros req o []. }
  all: try (inversion Ht; subst).
  all: inversion Hpre; subst.
  all: rewrite !applied_app, ?applied_successes; cbn; rewrite ?app_nil_r.
  all: split;
    [| intros req' o' Hin; repeat (apply in_app_or in Hin; destruct Hin as [Hin|Hin]);
       try (apply (success_in _ _ (successes_success _ _ _)) in Hin;
            destruct Hin as (? & ? & ?); discriminate);
       try (cbn in Hin; intuition discriminate); reflexivity ].
  all: match goal with
       | |- exists _, map _ (seq 0 ?k) ++ [(Global, ?k)] = _ =>
           exists (S k); rewrite <- declared_global_prefix by lia;
           now rewrite seq_S, map_app
       | |- exists _, (map _ (seq 0 ?n) ++ map _ (seq 0 ?k)) ++ [(PerCall, ?k)] = _ =>
           exists (n + S k)%nat; rewrite <- declared_percall_prefix by lia;
           now rewrite seq_S, map_app, app_assoc
       | |- exists _, _ = take _ (declared ?n ?m) =>
           exists (n + m)%nat; exact (declared_whole n m)
       end.
Qed.

(** C2.  Take a client whose global chain is [A; B] and a call with the
    options [C].  The options the call applies are the first so many of
    A, B, C in this order, and all three once a request is sent.  A is
    applied to the request as built; B is applied, if A returned nil, to
    the request and the store as A left them; C is applied, if B
    returned nil too, to what B left; and the request that is sent is
    the one C left. *)
Theorem options_applied_in_order
    endpoint_ log_ transport validator debug_ (A B C : RequestOption)
    ctx method path parser s :
  let c := {| endpoint := endpoint_; log := log_; httpClient_ := transport;
              requestOptionsChain := [A; B];
              validateResponseFn := validator; debug := debug_ |} in
  let run := DoRequest c ctx method path parser [C] s in
  let order := [(Global, 0%nat); (Global, 1%nat); (PerCall, 0%nat)] in
  (exists k, applied (trace run) = firstn k order) /\
  (forall req o, In (EvSend req o) (trace run) -> applied (trace run) = order) /\
  match NewRequestWithContext ctx method (endpoint_ +:+ path) with
  | inr _ => List.filter is_option (trace run) = []
  | inl req0 =>
      let '(oA, req1, s1) := call A req0 s in
      let '(oB, req2, s2) := call B req1 s1 in
      let '(oC, req3, s3) := call C req2 s2 in
      List.filter is_option (trace run) =
        EvOption Global 0 oA ::
          (if returned_nil oA then
             EvOption Global 1 oB ::
               (if returned_nil oB then [EvOption PerCall 0 oC] else [])
           else []) /\
      (forall req o, In (EvSend req o) (trace run) ->
         req = req3 /\ oA = Done None /\ oB = Done None /\ oC = Done None)
  end.
Proof.
  intros c run order.
  pose proof (options_in_declaration_order c ctx method path parser [C] s)
    as [Hprefix Hsent].
  split; [exact Hprefix|]. split; [exact Hsent|]. clear Hprefix Hsent.
  subst run order c. unfold DoRequest, trace. cbn [endpoint requestOptionsChain
    httpClient_ validateResponseFn debug log apply_options].
  destruct (NewRequestWithContext ctx method (endpoint_ +:+ path)) as [req0|err];
    [|reflexivity].
  unfold bind, call_option.
  destruct (call A req0 s) as [[oA req1] s1] eqn:EA.
  destruct (call B req1 s1) as [[oB req2] s2] eqn:EB.
  destruct (call C req2 s2) as [[oC req3] s3] eqn:EC.
  destruct oA as [[eA|]|mA]; cbn -[call]; rewrite ?EB; cbn -[call];
    [no_send | | no_send].
  destruct oB as [[eB|]|mB]; cbn -[call]; rewrite ?EC; cbn -[call];
    [no_send | | no_send].
  destruct oC as [[eC|]|mC]; cbn -[call]; [no_send | | no_send].
  unfold send, defer, emit, call_validator, call_parser,
    logRequestM, logResponseM, ret, panic.
  repeat match goal with
         | |- context [match ?x with _ => _ end] =>
             lazymatch x with
             | context [match _ with _ => _ end] => fail
             | _ => destruct x
             end
         end;
    cbn; (split; [reflexivity|]); intros req' o' Hin;
    repeat (destruct Hin as [Hin|Hin]; try discriminate Hin);
    try contradiction; now injection Hin as <- _.
Qed.

End PipelineProperties.

(** ** The properties at work in the concrete setting *)

Section Witnesses.

#[local] Existing Instance Scenario.universe.
#[local] Existing Instance Scenario.library.

Import Scenario.

(** Proves a membership in a trace that has been computed. *)
Ltac found := vm_compute; repeat first [left; reflexivity | right].

(** The scenario of the specification: 404 with the body not found. *)
Lemma ResponseValidator_boundary_witness :
  (ResponseValidator (Some notFound) s0).1.1 =
    Done (Some (ErrStatusCode
      {| Code := 404; Status := "404 Not Found"; Body := "not found" |})) /\
  HTTPStatusCode {| Code := 404; Status := "404 Not Found"; Body := "not found" |}
    = 404 /\
  ResponseValidator (Some multipleChoices) s0 = (Done None, Some multipleChoices, s0) /\
  (ResponseValidator (Some movedPermanently) s0).1.1 =
    Done (Some (ErrStatusCode
      {| Code := 301; Status := "301 Moved Permanently"; Body := "moved" |})).
Proof.
  destruct (ResponseValidator_boundary notFound s0) as (_ & _ & _ & _ & Hreject).
  destruct (ResponseValidator_boundary multipleChoices s0) as (_ & _ & Haccept & _).
  destruct (ResponseValidator_boundary movedPermanently s0)
    as (_ & _ & _ & _ & Hreject').
  split; [apply Hreject; [vm_compute; reflexivity | reflexivity]|].
  split; [reflexivity|].
  split; [apply Haccept; vm_compute; discriminate|].
  apply Hreject'; [vm_compute; reflexivity | reflexivity].
Defined.

Lemma options_applied_in_order_witness :
  applied (trace run_groups) = [(Global, 0%nat); (Global, 1%nat); (PerCall, 0%nat)] /\
  outside (final run_groups) = ["A"; "B"; "C"]%string.
Proof.
  split; [|vm_compute; reflexivity].
  refine (proj1 (proj2 (options_applied_in_order "http://host" (Some 0%nat)
            (answering groups) ResponseValidator false
            (marking "A") (marking "B") (marking "C")
            tt "GET" "/api/v1/groups" (RawStringParser (Some 1%nat)) s0))
          fresh (Done (Some groups, None)) _).
  found.
Defined.

(** The validator rejects the 404 and the parser is not called; it
    accepts the 200 and the parser is called once. *)
Lemma validator_decides_parsing_witness :
  In (EvValidate notFound (Done (Some (ErrStatusCode
        {| Code := 404; Status := "404 Not Found"; Body := "not found" |}))))
     (trace run_not_found) /\
  answer run_not_found =
    Done (Some (ErrStatusCode
      {| Code := 404; Status := "404 Not Found"; Body := "not found" |})) /\
  count is_parse (trace run_not_found) = 0%nat /\
  In (EvValidate groups (Done None)) (trace run_groups) /\
  count is_parse (trace run_groups) = 1%nat /\
  answer run_groups = Done None.
Proof.
  assert (Hin : In (EvValidate notFound (Done (Some (ErrStatusCode
            {| Code := 404; Status := "404 Not Found"; Body := "not found" |}))))
          (trace run_not_found)) by found.
  assert (Hin' : In (EvValidate groups (Done None)) (trace run_groups)) by found.
  destruct (validator_decides_parsing _ _ _ _ _ _ _ _ _ Hin) as (_ & Hanswer & Hnone).
  destruct (validator_decides_parsing _ _ _ _ _ _ _ _ _ Hin') as (_ & Honce & _).
  repeat split; assumption.
Defined.

(** The body is closed once when the validator rejects, when the parser
    succeeds and when the parser fails. *)
Lemma body_closed_exactly_once_witness :
  In (EvSend {| http.Method := "GET"; http.URL := "http://host/api/v1/users";
                http.Header := Some ∅ |} (Done (Some notFound, None)))
     (trace run_not_found) /\
  count is_close (trace run_not_found) = 1%nat /\
  last (trace run_not_found) = Some EvClose /\
  In (EvSend fresh (Done (Some groups, None))) (trace run_groups) /\
  count is_close (trace run_groups) = 1%nat /\
  answer run_groups = Done None /\
  In (EvSend fresh (Done (Some groups, None))) (trace run_nil_destination) /\
  count is_close (trace run_nil_destination) = 1%nat /\
  answer run_nil_destination =
    Done (Some (Errorf "RawStringParser function error: %v | %v"
                  [PrintedValue; PrintedNil])).
Proof.
  assert (Hin : In (EvSend {| http.Method := "GET";
                              http.URL := "http://host/api/v1/users";
                              http.Header := Some ∅ |}
                      (Done (Some notFound, None)))
                   (trace run_not_found)) by found.
  assert (Hok : In (EvSend fresh (Done (Some groups, None))) (trace run_groups))
    by found.
  assert (Hnil : In (EvSend fresh (Done (Some groups, None)))
                    (trace run_nil_destination)) by found.
  destruct (body_closed_exactly_once _ _ _ _ _ _ _ _ _ Hin) as (Hone & Hlast & _).
  destruct (body_closed_exactly_once _ _ _ _ _ _ _ _ _ Hok) as (Hone' & _).
  destruct (body_closed_exactly_once _ _ _ _ _ _ _ _ _ Hnil) as (Hone'' & _).
  repeat split; try assumption; vm_compute; reflexivity.
Defined.

Lemma WithHeadersOpt_replaces_headers_witness :
  WithHeadersOpt (Some someHeaders)
    (Some (http.set_Header fresh (Some {[ "User-Agent" := ["my-api-client"] ]}))) s0
  = (Done None, Some (http.set_Header fresh (Some someHeaders)), s0).
Proof.
  destruct (WithHeadersOpt_replaces_headers someHeaders
              (http.set_Header fresh (Some {[ "User-Agent" := ["my-api-client"] ]})) s0)
    as (req' & Heq & _).
  rewrite Heq. injection Heq as <-. reflexivity.
Defined.

Lemma option_error_stops_before_send_witness :
  In (EvOption Global 1 (Done (Some (ErrForeign "B")))) (trace run_option_fails) /\
  answer run_option_fails =
    Done (Some (ErrorfW "failed to apply global request option: %w"
                  (ErrForeign "B"))) /\
  count is_send (trace run_option_fails) = 0%nat.
Proof.
  assert (Hin : In (EvOption Global 1 (Done (Some (ErrForeign "B"))))
                   (trace run_option_fails)) by found.
  split; [exact Hin|].
  destruct (option_error_stops_before_send _ _ _ _ _ _ _ _ _ _ Hin)
    as (Hanswer & _ & Hsend & _).
  now split.
Defined.

(** The deletion of the specification: 201 with an empty body.  The
    parser is called and returns nil, and nothing is logged. *)
Lemma NoBodyParser_never_fails_witness :
  In (EvParse created (Done None)) (trace run_delete) /\
  answer run_delete = Done None /\
  final run_delete = s0 /\
  answer run_example = Done None.
Proof.
  assert (Hin : In (EvParse created (Done None)) (trace run_delete)) by found.
  assert (Hex : In (EvParse (DumpResponse created).2 (Done None)) (trace run_example))
    by found.
  split; [exact Hin|].
  destruct (NoBodyParser_never_fails (client (answering created) []) tt
              "DELETE" "/api/v1/groups?id=test" [] s0) as (_ & [Hparse _] & _).
  destruct (NoBodyParser_never_fails (exampleClient (answering created)) tt
              "DELETE" "/api/v1/groups?id=test" [] s0) as (_ & [Hparse' _] & _).
  split; [exact (proj2 (Hparse _ _ Hin))|].
  split; [vm_compute; reflexivity|].
  exact (proj2 (Hparse' _ _ Hex)).
Defined.

End Witnesses.

(** ** The stages of a call, one after the other *)

Section StageEquations.

Context {U : Universe} {L : Library}.

Lemma respond_stages c parser resp s :
  respond c parser resp s =
  match (if debug c then logResponse resp (log c) s else (Done tt, resp, s)) with
  | (Panicked msg, _, s1) => (Panicked msg, s1, [EvClose])
  | (Done _, resp1, s1) =>
      match call (validateResponseFn c) resp1 s1 with
      | (Panicked msg, _, s2) =>
          (Panicked msg, s2, [EvValidate resp1 (Panicked msg); EvClose])
      | (Done (Some err), _, s2) =>
          (Done (Some err), s2, [EvValidate resp1 (Done (Some err)); EvClose])
      | (Done None, resp2, s2) =>
          let '(o, _, s3) := call parser resp2 s2 in
          (o, s3, [EvValidate resp1 (Done None); EvParse resp2 o; EvClose])
      end
  end.
Proof.
  unfold respond, defer, bind, emit, logResponseM, call_validator, call_parser, ret.
  destruct (debug c).
  - destruct (logResponse resp (log c) s) as [[[[]|msg] resp1] s1]; [|reflexivity].
    destruct (call (validateResponseFn c) resp1 s1) as [[[[e|]|msg] resp2] s2];
      try reflexivity.
    now destruct (call parser resp2 s2) as [[o resp3] s3].
  - destruct (call (validateResponseFn c) resp s) as [[[[e|]|msg] resp2] s2];
      try reflexivity.
    now destruct (call parser resp2 s2) as [[o resp3] s3].
Qed.

Lemma dispatch_stages c parser req s :
  dispatch c parser req s =
  match (if debug c then logRequest req (log c) s else (Done tt, s)) with
  | (Panicked msg, s1) => (Panicked msg, s1, [])
  | (Done _, s1) =>
      match Do (httpClient_ c) req s1 with
      | (Panicked msg, s2) => (Panicked msg, s2, [EvSend req (Panicked msg)])
      | (Done (resp, Some err), s2) =>
          (Done (Some err), s2, [EvSend req (Done (resp, Some err))])
      | (Done (None, None), s2) =>
          (Panicked nil_dereference, s2, [EvSend req (Done (None, None))])
      | (Done (Some resp, None), s2) =>
          let '(o, s3, t3) := respond c parser resp s2 in
          (o, s3, EvSend req (Done (Some resp, None)) :: t3)
      end
  end.
Proof.
  unfold dispatch, bind, send, logRequestM, ret, panic.
  destruct (debug c).
  - destruct (logRequest req (log c) s) as [[[]|msg] s1]; [|reflexivity].
    destruct (Do (httpClient_ c) req s1) as [[[[resp|] [err|]]|msg] s2];
      try reflexivity.
    now destruct (respond c parser resp s2) as [[o s3] t3].
  - destruct (Do (httpClient_ c) req s) as [[[[resp|] [err|]]|msg] s2];
      try reflexivity.
    now destruct (respond c parser resp s2) as [[o s3] t3].
Qed.

Lemma DoRequest_stages c ctx method path parser options s :
  DoRequest c ctx method path parser options s =
  match NewRequestWithContext ctx method (endpoint c +:+ path) with
  | inr err => (Done (Some err), s, [])
  | inl req0 =>
      match apply_options Global 0 (requestOptionsChain c) req0 s with
      | (Panicked msg, s1, t1) => (Panicked msg, s1, t1)
      | (Done (Some err, _), s1, t1) => (Done (Some err), s1, t1)
      | (Done (None, req1), s1, t1) =>
          match apply_options PerCall 0 options req1 s1 with
          | (Panicked msg, s2, t2) => (Panicked msg, s2, t1 ++ t2)
          | (Done (Some err, _), s2, t2) => (Done (Some err), s2, t1 ++ t2)
          | (Done (None, req2), s2, t2) =>
              let '(o, s3, t3) := dispatch c parser req2 s2 in
              (o, s3, t1 ++ t2 ++ t3)
          end
      end
  end.
Proof.
  unfold DoRequest.
  destruct (NewRequestWithContext ctx method (endpoint c +:+ path))
    as [req0|err]; [|reflexivity].
  unfold bind at 1.
  destruct (apply_options Global 0 (requestOptionsChain c) req0 s)
    as [[[[[err|] req1]|msg] s1] t1]; [|unfold bind at 1|reflexivity].
  - unfold ret. now rewrite app_nil_r.
  - destruct (apply_options PerCall 0 options req1 s1)
      as [[[[[err|] req2]|msg] s2] t2]; [| |reflexivity].
    + unfold ret. now rewrite app_nil_r.
    + change (bind (if debug c then logRequestM req2 (log c) else ret tt) _ s2)
        with (dispatch c parser req2 s2).
      now destruct (dispatch c parser req2 s2) as [[o s3] t3].
Qed.

End StageEquations.

(** ** Chains of options *)

Section Chains.

Context {U : Universe} {L : Library}.

(** The labels of the events do not matter to what a loop does. *)
Lemma apply_options_outcome ch ch' opts :
  forall i i' req s,
    outcome (apply_options ch i opts req s) =
    outcome (apply_options ch' i' opts req s).
Proof.
  induction opts as [|opt rest IH]; intros i i' req s; [reflexivity|].
  simpl. unfold bind, call_option, outcome.
  destruct (call opt req s) as [[[[e|]|msg] req'] s']; try reflexivity.
  specialize (IH (S i) (S i') req' s'). unfold outcome in IH.
  destruct (apply_options ch (S i) rest req' s') as [[r1 s1] t1].
  destruct (apply_options ch' (S i') rest req' s') as [[r2 s2] t2].
  cbn in *. now injection IH as -> ->.
Qed.

(** A loop over two chains one after the other is the loop over the
    first and, when that went through, the loop over the second. *)
Lemma apply_options_app ch opts1 opts2 :
  forall i req s,
    outcome (apply_options ch i (opts1 ++ opts2) req s) =
    match outcome (apply_options ch i opts1 req s) with
    | (Done (None, req1), s1) =>
        outcome (apply_options ch (i + length opts1) opts2 req1 s1)
    | stopped => stopped
    end.
Proof.
  induction opts1 as [|opt rest IH]; intros i req s.
  - cbn. now rewrite Nat.add_0_r.
  - specialize (IH (S i)). simpl. unfold bind, call_option, outcome in *.
    destruct (call opt req s) as [[[[e|]|msg] req'] s']; try reflexivity.
    specialize (IH req' s').
    destruct (apply_options ch (S i) (rest ++ opts2) req' s') as [[r1 s1] t1].
    destruct (apply_options ch (S i) rest req' s') as [[r2 s2] t2].
    cbv [fst] in *. rewrite <- Nat.add_succ_comm. exact IH.
Qed.

(** A loop causes option events only. *)
Lemma apply_options_events ch opts i req s :
  Forall (fun e => is_option e = true) (trace (apply_options ch i opts req s)).
Proof.
  pose proof (apply_options_shape ch opts i req s) as Hs.
  destruct (apply_options ch i opts req s) as [[[[[err|] req1]|msg] s1] t].
  - destruct Hs as (k & e & _ & -> & _). cbn.
    apply Forall_app_2; [|now repeat constructor].
    eapply Forall_impl; [apply successes_success|]. now intros ? (? & ? & ->).
  - subst t. cbn.
    eapply Forall_impl; [apply successes_success|]. now intros ? (? & ? & ->).
  - destruct Hs as (k & _ & ->). cbn.
    apply Forall_app_2; [|now repeat constructor].
    eapply Forall_impl; [apply successes_success|]. now intros ? (? & ? & ->).
Qed.

(** A chain that holds an option that always fails never goes through. *)
Lemma apply_options_stops ch opts opt :
  In opt opts -> always_fails opt ->
  forall i req s req' s' t,
    apply_options ch i opts req s <> (Done (None, req'), s', t).
Proof.
  intros Hin Hfail.
  induction opts as [|o rest IH]; [destruct Hin|].
  intros i req s req' s' t. simpl. unfold bind, call_option, call.
  destruct Hin as [->|Hin].
  - destruct (Hfail req s) as (e & He).
    destruct (opt (Some req) s) as [[r p] s1]. cbn in He. subst r. cbn.
    discriminate.
  - destruct (o (Some req) s) as [[[[e|]|msg] p] s1]; cbn; try discriminate.
    specialize (IH Hin (S i) (default req p) s1).
    destruct (apply_options ch (S i) rest (default req p) s1) as [[r s2] t2].
    intros Heq. injection Heq as -> -> _. now apply (IH req' s' t2).
Qed.

End Chains.

(** ** Configuring a client *)

Section Configuration.

Context {U : Universe} {L : Library}.

Lemma configure_chain xs :
  forall c,
    requestOptionsChain (fold_left (fun c opt => opt c) (map option_of xs) c) =
    requestOptionsChain c ++ flat_map contributed xs.
Proof.
  induction xs as [|x xs IH]; intros c; simpl.
  - now rewrite app_nil_r.
  - rewrite IH. destruct x; cbn; rewrite <- ?app_assoc, ?app_nil_r; reflexivity.
Qed.

Lemma configure_endpoint xs :
  forall c,
    endpoint (fold_left (fun c opt => opt c) (map option_of xs) c) = endpoint c.
Proof.
  induction xs as [|x xs IH]; intros c; simpl; [reflexivity|].
  rewrite IH. now destruct x.
Qed.

(** A field is what it was when no setting in the list is of its kind. *)
Lemma configure_untouched xs :
  forall c,
    let c' := fold_left (fun c opt => opt c) (map option_of xs) c in
    (forallb (fun x => negb (sets_debug x)) xs = true -> debug c' = debug c) /\
    (forallb (fun x => negb (sets_log x)) xs = true -> log c' = log c) /\
    (forallb (fun x => negb (sets_httpClient x)) xs = true ->
       httpClient_ c' = httpClient_ c) /\
    (forallb (fun x => negb (sets_validator x)) xs = true ->
       validateResponseFn c' = validateResponseFn c).
Proof.
  induction xs as [|x xs IH]; intros c; simpl; [now repeat split|].
  destruct (IH (option_of x c)) as (Hd & Hl & Ht & Hv).
  repeat split; intros [Hx Hxs]%andb_prop.
  - rewrite (Hd Hxs). now destruct x.
  - rewrite (Hl Hxs). now destruct x.
  - rewrite (Ht Hxs). now destruct x.
  - rewrite (Hv Hxs). now destruct x.
Qed.

(** X1.  The global chain of a client built by [NewClient] from any list
    of the six configuration functions holds exactly the request options
    that [WithRequestOptions] and [RequestBasicAuthOption] were given, in
    the order of the list: each call appends, none replaces or reorders,
    and the other four functions leave the chain alone. *)
Theorem NewClient_chain_accumulates e xs :
  requestOptionsChain (NewClient e (map option_of xs)) = flat_map contributed xs.
Proof.
  unfold NewClient. now rewrite configure_chain.
Qed.

(** X2.  For the four plain fields the last setting of a kind wins and
    the defaults hold where there is none: with no setting of its kind
    the client is not in debug mode, logs to a new logger, uses the
    library's transport and the default validator; a setting that is
    followed by no other of its kind is the value of the field.  The
    endpoint is the one given, whatever the settings. *)
Theorem NewClient_last_setting_wins e xs ys :
  let plain := NewClient e (map option_of ys) in
  let later x := NewClient e (map option_of (xs ++ x :: ys)) in
  endpoint plain = e /\
  (forallb (fun x => negb (sets_debug x)) ys = true ->
     debug plain = false /\ forall b, debug (later (SetDebug b)) = b) /\
  (forallb (fun x => negb (sets_log x)) ys = true ->
     log plain = Some log_New /\ forall l, log (later (SetLog l)) = l) /\
  (forallb (fun x => negb (sets_httpClient x)) ys = true ->
     httpClient_ plain = http_Client /\
     forall t, httpClient_ (later (SetHttpClient t)) = t) /\
  (forallb (fun x => negb (sets_validator x)) ys = true ->
     validateResponseFn plain = ResponseValidator /\
     forall v, validateResponseFn (later (SetValidator v)) = v).
Proof.
  intros plain later. subst plain later. unfold NewClient.
  split; [now rewrite configure_endpoint|].
  repeat split; intros.
  all: rewrite ?map_app, ?fold_left_app; simpl.
  all: match goal with
       | |- _ (fold_left _ (map option_of ?l) ?c) = _ =>
           destruct (configure_untouched l c) as (Hd & Hl & Ht & Hv)
       end.
  all: first [exact (Hd H) | exact (Hl H) | exact (Ht H) | exact (Hv H)].
Qed.

End Configuration.

(** ** The two chains of a call *)

Section TwoChains.

Context {U : Universe} {L : Library}.

Lemma filter_options (t : list Event) :
  Forall (fun e => is_option e = true) t -> List.filter not_option t = [].
Proof.
  induction 1 as [|e t He _ IH]; [reflexivity|].
  simpl. unfold not_option at 1. now rewrite He.
Qed.

Lemma apply_options_filtered ch opts i req s r s' t :
  apply_options ch i opts req s = (r, s', t) -> List.filter not_option t = [].
Proof.
  intros Heq. pose proof (apply_options_events ch opts i req s) as He.
  rewrite Heq in He. now apply filter_options.
Qed.

(** X3.  The global chain of a client and the options of a call are one
    list: a call on a client with a global chain does what the same call
    does on the client without the chain when the chain is put in front
    of the call's own options.  The two calls give the same answer, leave
    the same store and send, validate, parse and close alike. *)
Theorem global_chain_is_prepended c ctx method path parser options s :
  let run := DoRequest c ctx method path parser options s in
  let run' :=
    DoRequest (without_chain c) ctx method path parser
      (requestOptionsChain c ++ options) s in
  answer run' = answer run /\
  final run' = final run /\
  List.filter not_option (trace run') = List.filter not_option (trace run).
Proof.
  intros run run'. subst run run'.
  destruct (DoRequest (without_chain c) ctx method path parser
              (requestOptionsChain c ++ options) s) as [[o' sf'] tf'] eqn:E'.
  destruct (DoRequest c ctx method path parser options s) as [[o sf] tf] eqn:E.
  rewrite DoRequest_stages in E, E'.
  change (endpoint (without_chain c)) with (endpoint c) in E'.
  change (requestOptionsChain (without_chain c)) with (@nil RequestOption) in E'.
  change (dispatch (without_chain c)) with (dispatch c) in E'.
  unfold answer, final, trace. cbn.
  destruct (NewRequestWithContext ctx method (endpoint c +:+ path))
    as [req0|err]; [|now rewrite E in E'; injection E' as -> -> ->].
  cbn [apply_options] in E'. unfold ret in E'.
  pose proof (apply_options_app PerCall (requestOptionsChain c) options 0 req0 s)
    as Happ.
  rewrite (apply_options_outcome PerCall Global (requestOptionsChain c) 0 0)
    in Happ.
  destruct (apply_options PerCall 0 (requestOptionsChain c ++ options) req0 s)
    as [[r s'] t] eqn:Eall.
  destruct (apply_options Global 0 (requestOptionsChain c) req0 s)
    as [[r1 s1] t1] eqn:Eg.
  apply apply_options_filtered in Eall, Eg.
  unfold outcome in Happ. cbv [fst] in Happ.
  destruct r1 as [[[err|] req1]|msg].
  - injection Happ as -> ->. injection E as <- <- <-. injection E' as <- <- <-.
    cbn. now rewrite Eall, Eg.
  - pose proof (apply_options_outcome PerCall PerCall options
                  (0 + length (requestOptionsChain c)) 0 req1 s1) as Hlab.
    unfold outcome in Hlab. cbv [fst] in Hlab. rewrite Hlab in Happ. clear Hlab.
    destruct (apply_options PerCall 0 options req1 s1) as [[r2 s2] t2] eqn:Ep.
    apply apply_options_filtered in Ep.
    cbv [fst] in Happ. injection Happ as -> ->.
    destruct r2 as [[[err|] req2]|msg].
    + injection E as <- <- <-. injection E' as <- <- <-.
      cbn. now rewrite List.filter_app, Eall, Eg, Ep.
    + destruct (dispatch c parser req2 s2) as [[o3 s3] t3].
      injection E as <- <- <-. injection E' as <- <- <-.
      cbn. now rewrite !List.filter_app, Eall, Eg, Ep.
    + injection E as <- <- <-. injection E' as <- <- <-.
      cbn. now rewrite List.filter_app, Eall, Eg, Ep.
  - injection Happ as -> ->. injection E as <- <- <-. injection E' as <- <- <-.
    cbn. now rewrite Eall, Eg.
Qed.

End TwoChains.

(** ** What a call does and does not do *)

Section Runs.

Context {U : Universe} {L : Library}.

Lemma non_option_position (pre rest before after : list Event) e :
  Forall success pre ->
  is_option e = false ->
  pre ++ rest = before ++ e :: after ->
  exists mid, before = pre ++ mid /\ rest = mid ++ e :: after.
Proof.
  intros Hpre He. revert before.
  induction Hpre as [|x pre Hx _ IH]; intros before Heq.
  - now exists before.
  - destruct before as [|y before]; cbn in Heq.
    + injection Heq as -> _. destruct Hx as (ch & i & ->). discriminate He.
    + injection Heq as -> Heq. destruct (IH _ Heq) as (mid & -> & ->).
      now exists mid.
Qed.

Lemma successes_are_options (pre : list Event) :
  Forall success pre -> forallb is_option pre = true.
Proof.
  induction 1 as [|x pre (ch & i & ->) _ IH]; [reflexivity|exact IH].
Qed.

(** X4.  A call never repeats a stage and keeps the stages in order: it
    hands at most one request to the transport (there is no retry), and
    before that it applies options and nothing else; it validates at
    most one response and only after the dispatch, parses at most once
    and only after the validation, and closes at most one body, after
    the dispatch and as the last thing it does. *)
Theorem no_stage_repeats c ctx method path parser options s :
  let run := DoRequest c ctx method path parser options s in
  (count is_send (trace run) <= 1)%nat /\
  (count is_validate (trace run) <= count is_send (trace run))%nat /\
  (count is_parse (trace run) <= count is_validate (trace run))%nat /\
  (count is_close (trace run) <= count is_send (trace run))%nat /\
  forall before e after,
    trace run = before ++ e :: after ->
    (is_send e = true -> forallb is_option before = true) /\
    (is_validate e = true -> count is_send before = 1%nat) /\
    (is_parse e = true ->
       count is_send before = 1%nat /\ count is_validate before = 1%nat) /\
    (is_close e = true -> count is_send before = 1%nat /\ after = []).
Proof.
  intros run. subst run.
  pose proof (DoRequest_shape c ctx method path parser options s) as Hs.
  cbv zeta in Hs.
  destruct (DoRequest c ctx method path parser options s) as [[o sf] t].
  unfold answer, trace in *. cbn in *.
  do 4 (split; [inv_shape Hs; counts|]).
  intros before e after Ht.
  destruct (is_option e) eqn:Hopt.
  { destruct e; try discriminate Hopt.
    split; [|split; [|split]]; intros Hk; discriminate Hk. }
  revert Ht. inv_shape Hs; intros Ht.
  1: now destruct before.
  all: try match type of Ht with
           | ?p = _ => is_var p; rewrite <- (app_nil_r p) in Ht
           end.
  all: match goal with
       | Hpre : Forall success ?pre |- _ =>
           destruct (non_option_position _ _ _ _ _ Hpre Hopt Ht) as (mid & -> & Hrest)
       end.
  all: destruct mid as [|e1 [|e2 [|e3 [|e4 mid]]]]; cbn in Hrest;
    try discriminate Hrest; injection Hrest as ?; subst.
  all: try discriminate Hopt.
  all: try match goal with
           | Hnil : [] = _ ++ _ :: _ |- _ => now destruct mid
           end.
  all: split; [|split; [|split]]; intros Hk; try discriminate Hk; clear Hk.
  all: rewrite ?app_nil_r; try (now apply successes_are_options).
  all: repeat split; counts.
Qed.

(** X5.  A call that returns nil went through every stage once: every
    option of the global chain and then every option of the call
    returned nil, the request they built was sent, the transport
    answered with a response and no error, the validator accepted, the
    parser returned nil, and the body was closed last. *)
Theorem nil_answer_ran_every_stage c ctx method path parser options s :
  let run := DoRequest c ctx method path parser options s in
  answer run = Done None ->
  exists req resp resp1 resp2,
    trace run =
      successes Global 0 (length (requestOptionsChain c)) ++
      successes PerCall 0 (length options) ++
      [EvSend req (Done (Some resp, None)); EvValidate resp1 (Done None);
       EvParse resp2 (Done None); EvClose] /\
    built_by c ctx method path options s req /\
    accepted_by (validateResponseFn c) resp1 resp2 /\
    outcome_of parser resp2 (Done None).
Proof.
  intros run. subst run.
  pose proof (DoRequest_shape c ctx method path parser options s) as Hs.
  cbv zeta in Hs.
  destruct (DoRequest c ctx method path parser options s) as [[o sf] t].
  unfold answer, trace in *. cbn in *. intros ->.
  inversion Hs as [| | | | | | |pre req resp o tail Hpre Hsent Htail]; subst.
  inversion Htail as [| | |resp1 resp2 o Hv Hp]; subst.
  inversion Hpre; subst.
  exists req, resp, resp1, resp2. rewrite <- app_assoc. now repeat split.
Qed.

(** X6.  Whatever the transport comes back with other than a response
    without an error ends the call at once: an error is returned as it
    is, not wrapped, also when a response came with it; a panic goes on;
    neither a response nor an error is a nil dereference.  Nothing is
    validated, parsed or closed then. *)
Theorem transport_failure_ends_call c ctx method path parser options s req o :
  let run := DoRequest c ctx method path parser options s in
  In (EvSend req o) (trace run) ->
  (forall resp, o <> Done (Some resp, None)) ->
  answer run =
    match o with
    | Done (_, Some err) => Done (Some err)
    | Done (_, None) => Panicked nil_dereference
    | Panicked msg => Panicked msg
    end /\
  last (trace run) = Some (EvSend req o) /\
  count is_validate (trace run) = 0%nat /\
  count is_parse (trace run) = 0%nat /\
  count is_close (trace run) = 0%nat.
Proof.
  intros run. subst run.
  pose proof (DoRequest_shape c ctx method path parser options s) as Hs.
  cbv zeta in Hs.
  destruct (DoRequest c ctx method path parser options s) as [[a sf] t].
  unfold answer, trace in *. cbn in *. intros Hin Hno.
  inv_shape Hs; in_trace Hin.
  all: try (injection Hin as <- <-).
  all: try (now destruct (Hno resp)).
  all: try (now destruct (Hno resp0)).
  all: split; [reflexivity|]; split; [apply last_snoc|]; repeat split; counts.
Qed.

Lemma count_options kind (t : list Event) :
  Forall (fun e => is_option e = true) t ->
  (forall ch i o, kind (EvOption ch i o) = false) ->
  count kind t = 0%nat.
Proof.
  intros Ht Hkind. induction Ht as [|e t He _ IH]; [reflexivity|].
  rewrite count_cons, IH. destruct e; try discriminate He. now rewrite Hkind.
Qed.

Lemma WithHeadersOpt_nil_always_fails : always_fails (WithHeadersOpt None).
Proof. intros req s. eexists. reflexivity. Qed.

(** X7.  An option that returns an error on every request, as the
    header option built over a nil header map does, keeps every call
    from the transport wherever it stands in the global chain or among
    the options of the call: nothing is sent and the call does not
    return nil. *)
Theorem failing_option_blocks_dispatch c ctx method path parser options s opt :
  let run := DoRequest c ctx method path parser options s in
  In opt (requestOptionsChain c ++ options) ->
  opt = WithHeadersOpt None \/ always_fails opt ->
  count is_send (trace run) = 0%nat /\ answer run <> Done None.
Proof.
  intros run Hin Hopt. subst run.
  assert (Hfail : always_fails opt).
  { destruct Hopt as [->|Hopt]; [apply WithHeadersOpt_nil_always_fails|exact Hopt]. }
  clear Hopt.
  destruct (DoRequest c ctx method path parser options s) as [[o sf] tf] eqn:E.
  rewrite DoRequest_stages in E. unfold answer, trace. cbn.
  destruct (NewRequestWithContext ctx method (endpoint c +:+ path))
    as [req0|err]; [|now injection E as <- <- <-].
  pose proof (apply_options_events Global (requestOptionsChain c) 0 req0 s) as Hg.
  destruct (apply_options Global 0 (requestOptionsChain c) req0 s)
    as [[[[[err|] req1]|msg] s1] t1] eqn:Eg; unfold trace in Hg; cbn in Hg.
  - injection E as <- <- <-. split; [now apply count_options|discriminate].
  - pose proof (apply_options_events PerCall options 0 req1 s1) as Hp.
    destruct (apply_options PerCall 0 options req1 s1)
      as [[[[[err|] req2]|msg] s2] t2] eqn:Ep; unfold trace in Hp; cbn in Hp.
    + injection E as <- <- <-. rewrite count_app.
      split; [now rewrite !count_options|discriminate].
    + apply in_app_or in Hin. destruct Hin as [Hin|Hin].
      * now destruct (apply_options_stops Global _ opt Hin Hfail _ _ _ _ _ _ Eg).
      * now destruct (apply_options_stops PerCall _ opt Hin Hfail _ _ _ _ _ _ Ep).
    + injection E as <- <- <-. rewrite count_app.
      split; [now rewrite !count_options|discriminate].
  - injection E as <- <- <-. split; [now apply count_options|discriminate].
Qed.

End Runs.

(** ** The built-in options and parsers on their own *)

Section BuiltIns.

Context {U : Universe} {L : Library}.

(** X8.  On a request that has a header map, the basic-auth option
    returns nil and changes one thing only: the Authorization header is
    the single value Basic followed by the encoded credentials.  Every
    other header, the method, the URL and the store stay, and
    credentials set before are replaced, not kept beside the new ones:
    the request is the same as if the earlier credentials had never been
    set.  On a request whose header map is nil it panics and leaves the
    request alone. *)
Theorem basicAuth_sets_only_authorization username password req s :
  (forall h, http.Header req = Some h ->
     exists req' h',
       basicAuthRequestOption username password (Some req) s =
         (Done None, Some req', s) /\
       http.Header req' = Some h' /\
       h' !! "Authorization"%string =
         Some ["Basic " +:+ http.basicAuth username password] /\
       (forall key, key <> "Authorization"%string -> h' !! key = h !! key) /\
       http.Method req' = http.Method req /\
       http.URL req' = http.URL req /\
       (forall username0 password0 req0,
          basicAuthRequestOption username0 password0 (Some req) s =
            (Done None, Some req0, s) ->
          basicAuthRequestOption username password (Some req0) s =
            (Done None, Some req', s))) /\
  (http.Header req = None ->
     basicAuthRequestOption username password (Some req) s =
       (Panicked nil_map_assignment, Some req, s)).
Proof.
  unfold basicAuthRequestOption, http.SetBasicAuth. split.
  - intros h Hh. rewrite Hh. eexists _, _.
    split; [reflexivity|]. split; [reflexivity|].
    split; [apply lookup_insert_eq|].
    split; [intros key Hkey; now apply lookup_insert_ne|].
    split; [reflexivity|]. split; [reflexivity|].
    intros username0 password0 req0 Heq. injection Heq as <-. cbn.
    unfold http.set_Header. cbn. now rewrite insert_insert_eq.
  - now intros ->.
Qed.

(** X9.  The raw-string and the raw-bytes parser, given a destination
    and a response, read the body to its end.  When the read succeeds
    they return nil and put all of the body into the destination, as a
    string or as the bytes themselves (the string holds the same bytes);
    no other variable changes, and of the response only the body, which
    is left drained, so that parsing the response a second time puts the
    empty string there.  When the read fails they return the read error,
    wrapped, and write nothing. *)
Theorem raw_parsers_deliver_body (d : nat) (r : http.Response) (s : Store) :
  let bytes := io.unread (http.Body r) in
  let drained :=
    http.set_Body r {| io.unread := []; io.fault := io.fault (http.Body r) |} in
  (io.fault (http.Body r) = None ->
     RawStringParser (Some d) (Some r) s =
       (Done None, Some drained, assign d (VString (string_of_list_byte bytes)) s) /\
     RawBodyParser (Some d) (Some r) s =
       (Done None, Some drained, assign d (VBytes bytes) s) /\
     list_byte_of_string (string_of_list_byte bytes) = bytes /\
     (forall v, cells (assign d v s) !! d = Some v /\
                outside (assign d v s) = outside s /\
                forall d', d' <> d -> cells (assign d v s) !! d' = cells s !! d') /\
     forall s', RawStringParser (Some d) (Some drained) s' =
                  (Done None, Some drained, assign d (VString "") s')) /\
  (forall err, io.fault (http.Body r) = Some err ->
     RawStringParser (Some d) (Some r) s =
       (Done (Some (ErrorfW "failed to read resp body: %w" err)), Some drained, s) /\
     RawBodyParser (Some d) (Some r) s =
       (Done (Some (ErrorfW "failed to read resp body: %w" err)), Some drained, s)).
Proof.
  intros bytes drained. subst bytes drained.
  unfold RawStringParser, RawBodyParser, ioutil.ReadAll. split.
  - intros Hf. rewrite Hf. cbn.
    split; [reflexivity|]. split; [reflexivity|].
    split; [apply list_byte_of_string_of_list_byte|].
    split.
    + intros v. cbn. split; [apply lookup_insert_eq|]. split; [reflexivity|].
      intros d' Hd'. now apply lookup_insert_ne.
    + intros s'. reflexivity.
  - intros err Hf. rewrite Hf. now split.
Qed.

(** X10.  The no-body parser never reads the body itself and never
    writes a variable.  It does nothing at all when the response
    declares a content length of zero or when there is no logger; with a
    logger and any other content length (also the -1 of an unknown
    length) it has the response dumped and logs the dump, or the error
    of the dump, and goes on with the response as the dump left it. *)
Theorem NoBodyParser_logs_when_length_and_logger log (r : http.Response) s :
  cells (NoBodyParser log (Some r) s).2 = cells s /\
  (http.ContentLength r = 0 \/ log = None ->
     NoBodyParser log (Some r) s = (Done None, Some r, s)) /\
  (forall l, http.ContentLength r <> 0 -> log = Some l ->
     NoBodyParser log (Some r) s =
       (Done None, Some (DumpResponse r).2,
        on_outside
          match (DumpResponse r).1 with
          | inl respDump => Infof l (string_of_list_byte respDump)
          | inr err => ErrorWith l err "failed to dump http response for logging"
          end s)).
Proof.
  unfold NoBodyParser, logResponse. repeat split.
  - destruct (negb (http.ContentLength r =? 0)), log as [l|];
      cbn -[DumpResponse]; try reflexivity.
    now destruct (DumpResponse r) as [[dump|err] r'].
  - intros [H0| ->].
    + now rewrite H0.
    + now rewrite andb_false_r.
  - intros l Hlen ->. apply Z.eqb_neq in Hlen. rewrite Hlen. cbn -[DumpResponse].
    now destruct (DumpResponse r) as [[dump|err] r'].
Qed.

End BuiltIns.

(** ** Calls from the dispatch on *)

Section Answered.

Context {U : Universe} {L : Library}.

Lemma apply_options_no_send ch opts i req s req' o :
  ~ In (EvSend req' o) (trace (apply_options ch i opts req s)).
Proof.
  intros Hin. pose proof (apply_options_events ch opts i req s) as He.
  rewrite Forall_forall in He. apply list_elem_of_In, He in Hin. discriminate.
Qed.

Lemma respond_no_send c parser resp s req o :
  ~ In (EvSend req o) (trace (respond c parser resp s)).
Proof.
  rewrite respond_stages.
  destruct (if debug c then logResponse resp (log c) s else (Done tt, resp, s))
    as [[[[]|msg] resp1] s1]; [|now intros [|[]]].
  destruct (call (validateResponseFn c) resp1 s1) as [[[[e|]|msg] resp2] s2];
    [now intros [|[|[]]]| |now intros [|[|[]]]].
  destruct (call parser resp2 s2) as [[o' resp3] s3]. now intros [|[|[|[]]]].
Qed.

(** A call in which the transport answered with a response is, from
    there on, the run of [respond] on that response and on the store the
    transport left. *)
Lemma DoRequest_answered c ctx method path parser options s req resp :
  In (EvSend req (Done (Some resp, None)))
     (trace (DoRequest c ctx method path parser options s)) ->
  exists pre sent,
    Forall success pre /\
    DoRequest c ctx method path parser options s =
      (answer (respond c parser resp sent), final (respond c parser resp sent),
       pre ++ EvSend req (Done (Some resp, None))
           :: trace (respond c parser resp sent)).
Proof.
  rewrite DoRequest_stages.
  destruct (NewRequestWithContext ctx method (endpoint c +:+ path))
    as [req0|err]; [|intros []].
  pose proof (apply_options_shape Global (requestOptionsChain c) 0 req0 s) as Hg.
  pose proof (apply_options_no_send Global (requestOptionsChain c) 0 req0 s) as Ng.
  destruct (apply_options Global 0 (requestOptionsChain c) req0 s)
    as [[[[[err|] req1]|msg] s1] t1]; unfold trace in *; cbn in Ng |- *;
    [intros Hin; now apply Ng in Hin| |intros Hin; now apply Ng in Hin].
  pose proof (apply_options_shape PerCall options 0 req1 s1) as Hp.
  pose proof (apply_options_no_send PerCall options 0 req1 s1) as Np.
  destruct (apply_options PerCall 0 options req1 s1)
    as [[[[[err|] req2]|msg] s2] t2]; unfold trace in *; cbn in Np |- *.
  1, 3: intros [Hin|Hin]%in_app_or; [now apply Ng in Hin|now apply Np in Hin].
  rewrite dispatch_stages.
  assert (Hpre : Forall success (t1 ++ t2))
    by (subst t1 t2; apply Forall_app_2; apply successes_success).
  destruct (if debug c then logRequest req2 (log c) s2 else (Done tt, s2))
    as [[[]|msg] s3]; cbn.
  2: { rewrite app_nil_r.
       intros [Hin|Hin]%in_app_or; [now apply Ng in Hin|now apply Np in Hin]. }
  pose proof (respond_no_send c parser) as Nr.
  destruct (Do (httpClient_ c) req2 s3) as [[[[resp'|] [err|]]|msg] s4]; cbn.
  2: { destruct (respond c parser resp' s4) as [[o s5] t3] eqn:Er. cbn.
       intros [Hin|[Hin|Hin]%in_app_or]%in_app_or;
         [now apply Ng in Hin|now apply Np in Hin|].
       destruct Hin as [Hin|Hin].
       - injection Hin as <- <-. exists (t1 ++ t2), s4. rewrite Er.
         split; [exact Hpre|]. unfold answer, final, trace. cbn.
         now rewrite <- app_assoc.
       - specialize (Nr resp' s4 req (Done (Some resp, None))).
         rewrite Er in Nr. now apply Nr in Hin. }
  all: intros [Hin|[Hin|Hin]%in_app_or]%in_app_or;
    [now apply Ng in Hin|now apply Np in Hin|].
  all: now destruct Hin as [Hin|[]].
Qed.

End Answered.

(** ** Calls with the default validator *)

Section DefaultValidator.

Context {U : Universe} {L : Library}.

(** The default validator on a response whose body can be read. *)
Lemma call_ResponseValidator (resp : http.Response) (s : Store) :
  call ResponseValidator resp s =
    if http.StatusCode resp >? 300 then
      (Done (Some match io.fault (http.Body resp) with
                  | Some err => ErrorfW "failed to read response body: %w" err
                  | None =>
                      ErrStatusCode
                        {| Code := http.StatusCode resp;
                           Status := http.Status resp;
                           Body := string_of_list_byte (io.unread (http.Body resp)) |}
                  end),
       http.set_Body resp {| io.unread := []; io.fault := io.fault (http.Body resp) |},
       s)
    else (Done None, resp, s).
Proof.
  unfold call, ResponseValidator, ioutil.ReadAll.
  destruct (http.StatusCode resp >? 300); [|reflexivity].
  now destruct (io.fault (http.Body resp)).
Qed.

(** X11.  With the default validator and debugging off, a call of
    [DoRequestString] whose transport answers with a response that can
    be read to its end either delivers or refuses, by the status code
    alone: up to 300 it returns nil and the destination holds the whole
    body as a string; above 300 it returns the status error that carries
    the code, the status line and the whole body, and the parser is not
    run. *)
Theorem DoRequestString_delivers_or_refuses
    c ctx method path (d : nat) options s req resp :
  let run := DoRequestString c ctx method path (Some d) options s in
  let text := string_of_list_byte (io.unread (http.Body resp)) in
  validateResponseFn c = ResponseValidator ->
  debug c = false ->
  In (EvSend req (Done (Some resp, None))) (trace run) ->
  io.fault (http.Body resp) = None ->
  (http.StatusCode resp <= 300 ->
     answer run = Done None /\
     cells (final run) !! d = Some (VString text)) /\
  (300 < http.StatusCode resp ->
     answer run =
       Done (Some (ErrStatusCode {| Code := http.StatusCode resp;
                                    Status := http.Status resp;
                                    Body := text |})) /\
     count is_parse (trace run) = 0%nat).
Proof.
  intros run text Hv Hd Hin Hf. subst run text. unfold DoRequestString in *.
  destruct (DoRequest_answered _ _ _ _ _ _ _ _ _ Hin) as (pre & sent & Hpre & ->).
  unfold answer, final, trace. cbn. rewrite respond_stages, Hv, Hd.
  rewrite call_ResponseValidator, Hf.
  split; intros Hcode.
  - replace (http.StatusCode resp >? 300) with false
      by (symmetry; rewrite Z.gtb_ltb; now apply Z.ltb_ge).
    unfold call, RawStringParser, ioutil.ReadAll. rewrite Hf. cbn.
    split; [reflexivity|apply lookup_insert_eq].
  - replace (http.StatusCode resp >? 300) with true
      by (symmetry; rewrite Z.gtb_ltb; now apply Z.ltb_lt).
    cbn. split; [reflexivity|]. counts.
Qed.

(** X12.  With the default validator and debugging off, a call of
    [DoRequestNoBody] (and so of [Get]) whose transport answers with a
    response returns nil exactly when the status code is at most 300:
    neither the body, readable or not, nor the content length nor the
    logger matter to success. *)
Theorem DoRequestNoBody_succeeds_iff_status
    c ctx method path options s req resp :
  let run := DoRequestNoBody c ctx method path options s in
  validateResponseFn c = ResponseValidator ->
  debug c = false ->
  In (EvSend req (Done (Some resp, None))) (trace run) ->
  (answer run = Done None <-> http.StatusCode resp <= 300).
Proof.
  intros run Hv Hd Hin. subst run. unfold DoRequestNoBody in *.
  destruct (DoRequest_answered _ _ _ _ _ _ _ _ _ Hin) as (pre & sent & Hpre & ->).
  unfold answer. cbn. rewrite respond_stages, Hv, Hd.
  rewrite call_ResponseValidator.
  destruct (http.StatusCode resp >? 300) eqn:Hcode.
  - apply Z.gtb_lt in Hcode. cbn. split; [discriminate|lia].
  - rewrite Z.gtb_ltb in Hcode. apply Z.ltb_ge in Hcode.
    pose proof (NoBodyParser_succeeds (log c) resp sent) as Hp.
    unfold call. destruct (NoBodyParser (log c) (Some resp) sent) as [[o p] s'].
    cbn in *. subst o. now split.
Qed.

(** X17.  With the default validator and debugging off, a call of
    [DoRequestJson] (and so of [GetJson]) whose transport answers with a
    status code of at most 300 hands the decoder the response exactly as
    the transport delivered it, the body unread, and answers what the
    decoder answers; the store is left as the decoder left it.  Above
    300 the decoder is not called. *)
Theorem DoRequestJson_decodes_what_was_received
    c ctx method path (dst : Destination) options s req resp :
  let run := DoRequestJson c ctx method path (Some dst) options s in
  validateResponseFn c = ResponseValidator ->
  debug c = false ->
  In (EvSend req (Done (Some resp, None))) (trace run) ->
  (http.StatusCode resp <= 300 ->
     exists sent,
       answer run = Done (Decode (http.Body resp) dst sent).1.1 /\
       final run = (Decode (http.Body resp) dst sent).2 /\
       In (EvParse resp (answer run)) (trace run)) /\
  (300 < http.StatusCode resp -> count is_parse (trace run) = 0%nat).
Proof.
  intros run Hv Hd Hin. subst run. unfold DoRequestJson in *.
  destruct (DoRequest_answered _ _ _ _ _ _ _ _ _ Hin) as (pre & sent & Hpre & ->).
  unfold answer, final, trace. cbn. rewrite respond_stages, Hv, Hd.
  rewrite call_ResponseValidator.
  split; intros Hcode.
  - replace (http.StatusCode resp >? 300) with false
      by (symmetry; rewrite Z.gtb_ltb; now apply Z.ltb_ge).
    exists sent. unfold call, JsonParser.
    destruct (Decode (http.Body resp) dst sent) as [[e b] s']. cbn.
    split; [reflexivity|]. split; [reflexivity|].
    apply in_or_app. right. cbn. tauto.
  - replace (http.StatusCode resp >? 300) with true
      by (symmetry; rewrite Z.gtb_ltb; now apply Z.ltb_lt).
    cbn. counts.
Qed.

End DefaultValidator.

(** ** Logging and panics *)

Section Logging.

Context {U : Universe} {L : Library}.

Lemma logRequest_safe c req s :
  debug c = false \/ is_Some (log c) ->
  exists s', (if debug c then logRequest req (log c) s else (Done tt, s))
             = (Done tt, s').
Proof.
  intros [->|[l Hl]]; [now exists s|].
  destruct (debug c); [|now exists s].
  rewrite Hl. unfold logRequest. destruct (DumpRequestOut req); eauto.
Qed.

Lemma logResponse_safe c resp s :
  debug c = false \/ is_Some (log c) ->
  exists resp' s',
    (if debug c then logResponse resp (log c) s else (Done tt, resp, s))
    = (Done tt, resp', s').
Proof.
  intros [->|[l Hl]]; [now exists resp, s|].
  destruct (debug c); [|now exists resp, s].
  rewrite Hl. apply logResponse_with_logger.
Qed.

(** X13.  A client in debug mode whose logger is nil cannot make a
    call: once the request is built and every option has returned nil,
    logging the request dereferences the nil logger, so the call panics
    before anything is handed to the transport.  No call of such a
    client sends anything or returns nil. *)
Theorem debug_without_logger_never_sends c ctx method path parser options s :
  let run := DoRequest c ctx method path parser options s in
  debug c = true ->
  log c = None ->
  count is_send (trace run) = 0%nat /\
  answer run <> Done None /\
  (forall req, built_by c ctx method path options s req ->
     answer run = Panicked nil_dereference).
Proof.
  intros run Hd Hl. subst run.
  assert (Hlog : forall req s', logRequest req None s' = (Panicked nil_dereference, s')).
  { intros req s'. unfold logRequest. now destruct (DumpRequestOut req). }
  destruct (DoRequest c ctx method path parser options s) as [[o sf] tf] eqn:E.
  rewrite DoRequest_stages in E. unfold answer, trace. cbn.
  assert (Hbuilt : forall req, built_by c ctx method path options s req ->
                     o = Panicked nil_dereference).
  { intros req (req0 & req1 & s1 & t1 & s2 & t2 & Hnew & Hg & Hp).
    rewrite Hnew, Hg, Hp, dispatch_stages, Hd, Hl, Hlog in E.
    now injection E as <- _ _. }
  split; [|split; [|exact Hbuilt]].
  - destruct (NewRequestWithContext ctx method (endpoint c +:+ path))
      as [req0|err]; [|now injection E as <- <- <-].
    pose proof (apply_options_events Global (requestOptionsChain c) 0 req0 s) as Hg.
    destruct (apply_options Global 0 (requestOptionsChain c) req0 s)
      as [[[[[err|] req1]|msg] s1] t1]; unfold trace in Hg; cbn in Hg.
    1, 3: injection E as <- <- <-; now apply count_options.
    pose proof (apply_options_events PerCall options 0 req1 s1) as Hp.
    destruct (apply_options PerCall 0 options req1 s1)
      as [[[[[err|] req2]|msg] s2] t2]; unfold trace in Hp; cbn in Hp.
    1, 3: injection E as <- <- <-; rewrite count_app; now rewrite !count_options.
    rewrite dispatch_stages, Hd, Hl, Hlog in E. injection E as <- <- <-.
    rewrite !count_app, count_nil. now rewrite !count_options.
  - destruct (NewRequestWithContext ctx method (endpoint c +:+ path))
      as [req0|err] eqn:Hnew; [|now injection E as <- <- <-].
    destruct (apply_options Global 0 (requestOptionsChain c) req0 s)
      as [[[[[err|] req1]|msg] s1] t1] eqn:Hg.
    1, 3: now injection E as <- <- <-.
    destruct (apply_options PerCall 0 options req1 s1)
      as [[[[[err|] req2]|msg] s2] t2] eqn:Hp.
    1, 3: now injection E as <- <- <-.
    rewrite (Hbuilt req2); [discriminate|]. unfold built_by. eauto 10.
Qed.

(** X14.  On a transport that keeps the contract of [http.Client.Do],
    by which a response returned without an error has a body (responses
    are modelled with one), the client adds no panic of its own as long
    as logging cannot fail (debugging is off, or there is a logger): a
    call panics only with the panic of one of its options, of the
    transport, of the validator or of the parser, which the trace shows
    with the same message, or with a nil dereference after a transport
    that returned neither a response nor an error. *)
Theorem panics_come_from_collaborators
    c ctx method path parser options s msg :
  let run := DoRequest c ctx method path parser options s in
  debug c = false \/ is_Some (log c) ->
  answer run = Panicked msg ->
  exists e, In e (trace run) /\ blames e msg.
Proof.
  intros run Hsafe. subst run.
  destruct (DoRequest c ctx method path parser options s) as [[o sf] tf] eqn:E.
  rewrite DoRequest_stages in E. unfold answer, trace. cbn. intros ->.
  destruct (NewRequestWithContext ctx method (endpoint c +:+ path))
    as [req0|err]; [|discriminate].
  pose proof (apply_options_shape Global (requestOptionsChain c) 0 req0 s) as Hg.
  destruct (apply_options Global 0 (requestOptionsChain c) req0 s)
    as [[[[[err|] req1]|m] s1] t1]; [discriminate| |].
  2: { injection E as -> _ <-. destruct Hg as (k & _ & ->).
       eexists. split; [apply in_or_app; right; left; reflexivity|exact eq_refl]. }
  pose proof (apply_options_shape PerCall options 0 req1 s1) as Hp.
  destruct (apply_options PerCall 0 options req1 s1)
    as [[[[[err|] req2]|m] s2] t2]; [discriminate| |].
  2: { injection E as -> _ <-. destruct Hp as (k & _ & ->).
       exists (EvOption PerCall (0 + k) (Panicked msg)). split; [|exact eq_refl].
       apply in_or_app; right. apply in_or_app; right. left; reflexivity. }
  clear Hg Hp. rewrite dispatch_stages in E.
  destruct (logRequest_safe c req2 s2 Hsafe) as (s3 & Hlog).
  rewrite Hlog in E. clear Hlog.
  destruct (Do (httpClient_ c) req2 s3) as [[[[resp|] [err|]]|m] s4];
    try discriminate.
  - rewrite respond_stages in E.
    destruct (logResponse_safe c resp s4 Hsafe) as (resp1 & s5 & Hlog).
    rewrite Hlog in E. clear Hlog.
    destruct (call (validateResponseFn c) resp1 s5) as [[[[e|]|m] resp2] s6];
      try discriminate.
    + destruct (call parser resp2 s6) as [[o resp3] s7].
      injection E as -> _ <-.
      exists (EvParse resp2 (Panicked msg)). split; [|exact eq_refl].
      do 2 (apply in_or_app; right). cbn. tauto.
    + injection E as -> _ <-.
      exists (EvValidate resp1 (Panicked msg)). split; [|exact eq_refl].
      do 2 (apply in_or_app; right). cbn. tauto.
  - injection E as <- _ <-.
    exists (EvSend req2 (Done (None, None))). split; [|exact eq_refl].
    do 2 (apply in_or_app; right). now left.
  - injection E as -> _ <-.
    exists (EvSend req2 (Panicked msg)). split; [|exact eq_refl].
    do 2 (apply in_or_app; right). now left.
Qed.

End Logging.

(** ** Where an error comes from *)

Section Origins.

Context {U : Universe} {L : Library}.

(** X15.  Every error a call returns is the error of one of its parts,
    and only the errors of options are wrapped: the call returns the
    error of the request construction as it is, having done nothing; or
    the error of an option, wrapped, right after that option; or the
    error of the transport as it is, right after the dispatch; or the
    error of the validator or of the parser as it is. *)
Theorem errors_come_from_collaborators
    c ctx method path parser options s err :
  let run := DoRequest c ctx method path parser options s in
  answer run = Done (Some err) ->
  (NewRequestWithContext ctx method (endpoint c +:+ path) = inr err /\
   trace run = [] /\ final run = s) \/
  (exists ch i e,
     last (trace run) = Some (EvOption ch i (Done (Some e))) /\
     err = ErrorfW "failed to apply global request option: %w" e) \/
  (exists req resp, last (trace run) = Some (EvSend req (Done (resp, Some err)))) \/
  (exists resp, In (EvValidate resp (Done (Some err))) (trace run)) \/
  (exists resp, In (EvParse resp (Done (Some err))) (trace run)).
Proof.
  intros run. subst run.
  destruct (DoRequest c ctx method path parser options s) as [[o sf] tf] eqn:E.
  rewrite DoRequest_stages in E. unfold answer, final, trace. cbn. intros ->.
  destruct (NewRequestWithContext ctx method (endpoint c +:+ path))
    as [req0|err0]; [|injection E as -> <- <-; now left].
  right.
  pose proof (apply_options_shape Global (requestOptionsChain c) 0 req0 s) as Hg.
  destruct (apply_options Global 0 (requestOptionsChain c) req0 s)
    as [[[[[e1|] req1]|m] s1] t1]; [| |discriminate].
  { injection E as -> _ <-. destruct Hg as (k & e & _ & -> & ->).
    left. exists Global, (0 + k)%nat, e. split; [apply last_snoc|reflexivity]. }
  pose proof (apply_options_shape PerCall options 0 req1 s1) as Hp.
  destruct (apply_options PerCall 0 options req1 s1)
    as [[[[[e2|] req2]|m] s2] t2]; [| |discriminate].
  { injection E as -> _ <-. destruct Hp as (k & e & _ & -> & ->).
    left. exists PerCall, (0 + k)%nat, e.
    split; [rewrite app_assoc; apply last_snoc|reflexivity]. }
  clear Hg Hp. right. rewrite dispatch_stages in E.
  destruct (if debug c then logRequest req2 (log c) s2 else (Done tt, s2))
    as [[[]|m] s3]; [|discriminate].
  destruct (Do (httpClient_ c) req2 s3) as [[[[resp|] [e3|]]|m] s4];
    try discriminate.
  - injection E as -> _ <-. left. exists req2, (Some resp).
    rewrite !app_assoc. apply last_snoc.
  - right. rewrite respond_stages in E.
    destruct (if debug c then logResponse resp (log c) s4 else (Done tt, resp, s4))
      as [[[[]|m] resp1] s5]; [|discriminate].
    destruct (call (validateResponseFn c) resp1 s5) as [[[[e|]|m] resp2] s6];
      try discriminate.
    + injection E as -> _ <-. left. exists resp1.
      do 2 (apply in_or_app; right). cbn. tauto.
    + destruct (call parser resp2 s6) as [[o resp3] s7].
      injection E as -> _ <-. right. exists resp2.
      do 2 (apply in_or_app; right). cbn. tauto.
  - injection E as -> _ <-. left. exists req2, None.
    rewrite !app_assoc. apply last_snoc.
Qed.

Lemma apply_options_ends_with_basicAuth ch before username password :
  forall i req s req' s' t,
    apply_options ch i (before ++ [basicAuthRequestOption username password]) req s =
      (Done (None, req'), s', t) ->
    exists h,
      http.Header req' = Some h /\
      h !! "Authorization"%string =
        Some ["Basic " +:+ http.basicAuth username password].
Proof.
  induction before as [|opt rest IH]; intros i req s req' s' t; cbn -[call].
  - unfold bind, call_option, call, basicAuthRequestOption, http.SetBasicAuth.
    destruct (http.Header req) as [h|]; cbn; [|discriminate].
    intros Heq. injection Heq as <- _ _. eexists. split; [reflexivity|].
    apply lookup_insert_eq.
  - unfold bind, call_option.
    destruct (call opt req s) as [[o req1] s1].
    destruct o as [[e|]|msg]; cbn; try discriminate.
    specialize (IH (S i) req1 s1).
    destruct (apply_options ch (S i)
                (rest ++ [basicAuthRequestOption username password]) req1 s1)
      as [[r s2] t2].
    intros Heq. injection Heq as -> -> _. now apply (IH req' s' t2).
Qed.

(** X16.  The credentials given to [RequestBasicAuthOption] reach the
    transport: on a client built by [NewClient] in which no request
    option is configured after the credentials, every request that a
    call without options of its own hands to the transport carries the
    Authorization header with exactly the one value Basic followed by
    the encoded credentials. *)
Theorem credentials_reach_transport
    e xs ys username password ctx method path parser s req o :
  let c := NewClient e (map option_of (xs ++ BasicAuth username password :: ys)) in
  let run := DoRequest c ctx method path parser [] s in
  flat_map contributed ys = [] ->
  In (EvSend req o) (trace run) ->
  exists h,
    http.Header req = Some h /\
    h !! "Authorization"%string =
      Some ["Basic " +:+ http.basicAuth username password].
Proof.
  intros c run Hys. subst run.
  assert (Hchain : requestOptionsChain c =
                   flat_map contributed xs ++ [basicAuthRequestOption username password]).
  { subst c. unfold NewClient. rewrite configure_chain, flat_map_app. cbn.
    now rewrite Hys. }
  pose proof (DoRequest_shape c ctx method path parser [] s) as Hs.
  cbv zeta in Hs.
  destruct (DoRequest c ctx method path parser [] s) as [[a sf] t].
  unfold answer, trace in *. cbn in *. intros Hin.
  assert (Hsent : built_by c ctx method path [] s req ->
                  exists h, http.Header req = Some h /\
                    h !! "Authorization"%string =
                      Some ["Basic " +:+ http.basicAuth username password]).
  { intros (req0 & req1 & s1 & t1 & s2 & t2 & _ & Hg & Hp).
    cbn in Hp. injection Hp as <- _ _. rewrite Hchain in Hg.
    now apply apply_options_ends_with_basicAuth in Hg. }
  inv_shape Hs; in_trace Hin.
  all: injection Hin as <- <-; now apply Hsent.
Qed.

End Origins.

(** ** These properties at work in the concrete setting *)

Section MoreWitnesses.

#[local] Existing Instance Scenario.universe.
#[local] Existing Instance Scenario.library.

Import Scenario.

Ltac found := vm_compute; repeat first [left; reflexivity | right].

(** The call for the groups went through all three options and every
    stage. *)
Lemma nil_answer_ran_every_stage_witness :
  answer run_groups = Done None /\
  exists req resp resp1 resp2,
    trace run_groups =
      [EvOption Global 0 (Done None); EvOption Global 1 (Done None);
       EvOption PerCall 0 (Done None);
       EvSend req (Done (Some resp, None)); EvValidate resp1 (Done None);
       EvParse resp2 (Done None); EvClose].
Proof.
  assert (Hnil : answer run_groups = Done None) by (vm_compute; reflexivity).
  split; [exact Hnil|].
  destruct (nil_answer_ran_every_stage _ _ _ _ _ _ _ Hnil)
    as (req & resp & resp1 & resp2 & Htrace & _).
  exists req, resp, resp1, resp2. exact Htrace.
Defined.

(** A transport that cannot connect: its error is the answer. *)
Lemma transport_failure_ends_call_witness :
  let run := DoRequest (client refusing []) tt "GET" "/api/v1/groups"
               (RawStringParser (Some 1%nat)) [] s0 in
  answer run = Done (Some (ErrForeign "connection refused")) /\
  count is_close (trace run) = 0%nat.
Proof.
  intros run.
  assert (Hin : In (EvSend fresh (Done (None, Some (ErrForeign "connection refused"))))
                   (trace run)) by found.
  destruct (transport_failure_ends_call _ _ _ _ _ _ _ _ _ Hin)
    as (Hanswer & _ & _ & _ & Hclose); [discriminate|].
  split; [exact Hanswer|exact Hclose].
Defined.

(** A header option over a nil map among the options of a call. *)
Lemma failing_option_blocks_dispatch_witness :
  let run := DoRequest (client (answering groups) [marking "A"]) tt "GET"
               "/api/v1/groups" (RawStringParser (Some 1%nat))
               [marking "C"; WithHeadersOpt None] s0 in
  count is_send (trace run) = 0%nat /\ answer run <> Done None.
Proof.
  intros run.
  apply (failing_option_blocks_dispatch
           (client (answering groups) [marking "A"]) tt "GET" "/api/v1/groups"
           (RawStringParser (Some 1%nat)) [marking "C"; WithHeadersOpt None] s0
           (WithHeadersOpt None)).
  - cbn. right. right. left. reflexivity.
  - left. reflexivity.
Defined.

(** The body of the 200 lands in the destination; the 404 comes back as
    a status error. *)
Lemma DoRequestString_delivers_or_refuses_witness :
  answer run_groups = Done None /\
  cells (final run_groups) !! 1%nat = Some (VString "[]") /\
  answer (DoRequestString (client (answering notFound) []) tt "GET"
            "/api/v1/users" (Some 1%nat) [] s0) =
    Done (Some (ErrStatusCode
      {| Code := 404; Status := "404 Not Found"; Body := "not found" |})).
Proof.
  assert (Hok : In (EvSend fresh (Done (Some groups, None))) (trace run_groups))
    by found.
  assert (Hno : In (EvSend {| http.Method := "GET";
                              http.URL := "http://host/api/v1/users";
                              http.Header := Some ∅ |}
                      (Done (Some notFound, None)))
                   (trace (DoRequestString (client (answering notFound) []) tt "GET"
                             "/api/v1/users" (Some 1%nat) [] s0))) by found.
  destruct (DoRequestString_delivers_or_refuses
              (client (answering groups) [marking "A"; marking "B"]) tt "GET"
              "/api/v1/groups" 1%nat [marking "C"] s0 fresh groups
              eq_refl eq_refl Hok eq_refl) as [Hdeliver _].
  destruct (DoRequestString_delivers_or_refuses
              (client (answering notFound) []) tt "GET" "/api/v1/users" 1%nat [] s0
              _ notFound eq_refl eq_refl Hno eq_refl) as [_ Hrefuse].
  destruct Hdeliver as [Hanswer Hcell]; [vm_compute; discriminate|].
  destruct Hrefuse as [Hstatus _]; [reflexivity|].
  split; [exact Hanswer|]. split; [exact Hcell|exact Hstatus].
Defined.

(** The deletion answered by 201 returns nil. *)
Lemma DoRequestNoBody_succeeds_iff_status_witness : answer run_delete = Done None.
Proof.
  assert (Hin : In (EvSend {| http.Method := "DELETE";
                              http.URL := "http://host/api/v1/groups?id=test";
                              http.Header := Some ∅ |}
                      (Done (Some created, None)))
                   (trace run_delete)) by found.
  apply (DoRequestNoBody_succeeds_iff_status (client (answering created) []) tt
           "DELETE" "/api/v1/groups?id=test" [] s0 _ created eq_refl eq_refl Hin).
  vm_compute. discriminate.
Defined.

(** Debugging switched on after the logger was taken away. *)
Lemma debug_without_logger_never_sends_witness :
  let run := DoRequest
               (NewClient "http://host"
                  [WithHttpClient (answering groups); WithLog None; WithDebug true])
               tt "GET" "/api/v1/groups" (RawStringParser (Some 1%nat)) [] s0 in
  count is_send (trace run) = 0%nat /\ answer run <> Done None.
Proof.
  intros run.
  destruct (debug_without_logger_never_sends
              (NewClient "http://host"
                 [WithHttpClient (answering groups); WithLog None; WithDebug true])
              tt "GET" "/api/v1/groups" (RawStringParser (Some 1%nat)) [] s0
              eq_refl eq_refl) as (Hsend & Hanswer & _).
  split; [exact Hsend|exact Hanswer].
Defined.

(** A transport that returns neither a response nor an error. *)
Lemma panics_come_from_collaborators_witness :
  let run := DoRequest
               (client {| Do := fun _ s => (Done (None, None), s) |} [])
               tt "GET" "/api/v1/groups" (RawStringParser (Some 1%nat)) [] s0 in
  answer run = Panicked nil_dereference /\
  exists e, In e (trace run) /\ blames e nil_dereference.
Proof.
  intros run.
  assert (Hpanic : answer run = Panicked nil_dereference) by (vm_compute; reflexivity).
  split; [exact Hpanic|].
  apply (panics_come_from_collaborators
           (client {| Do := fun _ s => (Done (None, None), s) |} [])
           tt "GET" "/api/v1/groups" (RawStringParser (Some 1%nat)) [] s0
           nil_dereference (or_introl eq_refl) Hpanic).
Defined.

(** The error of the second global option comes back wrapped. *)
Lemma errors_come_from_collaborators_witness :
  exists ch i e,
    last (trace run_option_fails) = Some (EvOption ch i (Done (Some e))) /\
    answer run_option_fails =
      Done (Some (ErrorfW "failed to apply global request option: %w" e)).
Proof.
  assert (Herr : answer run_option_fails =
                 Done (Some (ErrorfW "failed to apply global request option: %w"
                               (ErrForeign "B")))) by (vm_compute; reflexivity).
  destruct (errors_come_from_collaborators _ _ _ _ _ _ _ _ Herr)
    as [(Hnew & _)|[(ch & i & e & Hlast & Hwrap)|[(req & resp & Hlast)|[(resp & Hin)|(resp & Hin)]]]].
  - vm_compute in Hnew. discriminate Hnew.
  - exists ch, i, e. split; [exact Hlast|]. rewrite Herr. now rewrite Hwrap.
  - vm_compute in Hlast. discriminate Hlast.
  - vm_compute in Hin. now repeat destruct Hin as [Hin|Hin].
  - vm_compute in Hin. now repeat destruct Hin as [Hin|Hin].
Defined.

(** The credentials of the example reach the transport. *)
Lemma credentials_reach_transport_witness :
  exists h,
    http.Header (http.set_Header fresh (Some credentials)) = Some h /\
    h !! "Authorization"%string =
      Some ["Basic " +:+ http.basicAuth "Aladdin" "open sesame"].
Proof.
  apply (credentials_reach_transport "http://host"
           [SetHttpClient (answering groups)] [] "Aladdin" "open sesame"
           tt "GET" "/api/v1/groups" (RawStringParser (Some 1%nat)) s0
           (http.set_Header fresh (Some credentials)) (Done (Some groups, None)));
    [reflexivity|found].
Defined.

(** The toy decoder is handed the two bytes of the body. *)
Lemma DoRequestJson_decodes_what_was_received_witness :
  let run := GetJson (client (answering groups) []) tt "/api/v1/groups"
               (Some 1%nat) [] s0 in
  exists sent,
    answer run = Done (decode (body_of "[]") 1%nat sent).1.1 /\
    In (EvParse groups (answer run)) (trace run).
Proof.
  intros run.
  assert (Hin : In (EvSend fresh (Done (Some groups, None))) (trace run)) by found.
  destruct (DoRequestJson_decodes_what_was_received
              (client (answering groups) []) tt "GET" "/api/v1/groups" 1%nat [] s0
              fresh groups eq_refl eq_refl Hin) as [Hdecode _].
  destruct Hdecode as (sent & Hanswer & _ & Hparse); [vm_compute; discriminate|].
  exists sent. split; [exact Hanswer|exact Hparse].
Defined.

End MoreWitnesses.

(** ** The body stream and the library *)

Arguments DumpResponse : simpl never.

Section Closing.

Context {U : Universe} {L : Library}.

Lemma DumpResponse_closes (resp : http.Response) :
  io.fault (http.Body resp) = None ->
  http.Closed (DumpResponse resp).2 = true /\
  io.unread (http.Body (DumpResponse resp).2) = io.unread (http.Body resp).
Proof.
  intros Hf. unfold DumpResponse, ioutil.ReadAll. now rewrite Hf.
Qed.

Lemma logResponse_response resp l s :
  (logResponse resp (Some l) s).1.1 = Done tt /\
  (logResponse resp (Some l) s).1.2 = (DumpResponse resp).2.
Proof.
  unfold logResponse. now destruct (DumpResponse resp) as [[dump|err] resp'].
Qed.

(** The no-body parser, when it logs a response whose body can be read
    to its end, leaves the stream of that response closed as well. *)
Lemma NoBodyParser_closes_when_it_logs l (r : http.Response) (s : Store) :
  http.ContentLength r <> 0 ->
  io.fault (http.Body r) = None ->
  exists r' s',
    NoBodyParser (Some l) (Some r) s = (Done None, Some r', s') /\
    http.Closed r' = true.
Proof.
  intros Hlen Hf. unfold NoBodyParser.
  apply Z.eqb_neq in Hlen. rewrite Hlen. cbn.
  destruct (logResponse_response r l s) as [Hdone Hresp].
  destruct (logResponse r (Some l) s) as [[o r'] s']. cbn in Hdone, Hresp.
  subst o r'. eexists _, _. split; [reflexivity|].
  now apply DumpResponse_closes.
Qed.

(** C4.  In debug mode the stream that the transport hands over is
    closed twice.  Once the transport has answered with a response whose
    body can be read to its end, logging the response has the library
    read the stream, close it and put a copy in its place; the validator
    is handed that copy.  The deferred Close of [DoRequest], bound to
    the stream of the transport before the log was written, then closes
    that stream a second time. *)
Theorem debug_closes_body_twice
    c ctx method path parser options s req resp l :
  let run := DoRequest c ctx method path parser options s in
  debug c = true ->
  log c = Some l ->
  In (EvSend req (Done (Some resp, None))) (trace run) ->
  io.fault (http.Body resp) = None ->
  (exists o,
     In (EvValidate (DumpResponse resp).2 o) (trace run) /\
     http.Closed (DumpResponse resp).2 = true) /\
  count is_close (trace run) = 1%nat /\
  last (trace run) = Some EvClose /\
  closes (trace run) = 2%nat.
Proof.
  intros run Hd Hl Hin Hf. subst run.
  destruct (DoRequest_answered _ _ _ _ _ _ _ _ _ Hin) as (pre & sent & Hpre & ->).
  destruct (DumpResponse_closes resp Hf) as [Hclosed _].
  unfold answer, final, trace. cbn -[DumpResponse].
  rewrite respond_stages, Hd, Hl.
  destruct (logResponse_response resp l sent) as [Hdone Hresp].
  destruct (logResponse resp (Some l) sent) as [[o1 resp1] s1].
  cbn in Hdone, Hresp. subst o1 resp1.
  assert (Hvalidated : forall o t,
            existsb shows_closed
              (pre ++ EvSend req (Done (Some resp, None))
                   :: EvValidate (DumpResponse resp).2 o :: t) = true).
  { intros o t. rewrite existsb_app. apply orb_true_iff. right.
    cbn -[DumpResponse]. now rewrite Hclosed. }
  destruct (call (validateResponseFn c) (DumpResponse resp).2 s1)
    as [[[[e|]|msg] resp2] s2].
  3: { cbn -[DumpResponse]. split; [eexists; split; [|exact Hclosed]|].
       - apply in_or_app. right. right. now left.
       - split; [counts|]. split; [now apply last_after_send|].
         unfold closes. rewrite Hvalidated. counts. }
  1: { cbn -[DumpResponse]. split; [eexists; split; [|exact Hclosed]|].
       - apply in_or_app. right. right. now left.
       - split; [counts|]. split; [now apply last_after_send|].
         unfold closes. rewrite Hvalidated. counts. }
  destruct (call parser resp2 s2) as [[o resp3] s3].
  cbn -[DumpResponse]. split; [eexists; split; [|exact Hclosed]|].
  - apply in_or_app. right. right. now left.
  - split; [counts|]. split; [now apply last_after_send|].
    unfold closes. rewrite Hvalidated. counts.
Qed.

End Closing.

(** ** Nil destinations and the dispatch *)

Section Dispatch.

Context {U : Universe} {L : Library}.

(** A send event is a call of the transport: the request is the one the
    options built, the outcome shown is what [Do] returned on it, and
    the call went on from the store that [Do] left. *)
Lemma DoRequest_sent c ctx method path parser options s req o :
  In (EvSend req o) (trace (DoRequest c ctx method path parser options s)) ->
  exists pre before after,
    Forall success pre /\
    built_by c ctx method path options s req /\
    Do (httpClient_ c) req before = (o, after) /\
    DoRequest c ctx method path parser options s =
      match o with
      | Done (Some resp, None) =>
          (answer (respond c parser resp after), final (respond c parser resp after),
           pre ++ EvSend req o :: trace (respond c parser resp after))
      | Done (_, Some err) => (Done (Some err), after, pre ++ [EvSend req o])
      | Done (None, None) => (Panicked nil_dereference, after, pre ++ [EvSend req o])
      | Panicked msg => (Panicked msg, after, pre ++ [EvSend req o])
      end.
Proof.
  rewrite DoRequest_stages. unfold built_by.
  destruct (NewRequestWithContext ctx method (endpoint c +:+ path))
    as [req0|err]; [|intros []].
  pose proof (apply_options_shape Global (requestOptionsChain c) 0 req0 s) as Hg.
  pose proof (apply_options_no_send Global (requestOptionsChain c) 0 req0 s) as Ng.
  destruct (apply_options Global 0 (requestOptionsChain c) req0 s)
    as [[[[[err|] req1]|msg] s1] t1] eqn:Eg; unfold trace in *; cbn in Ng |- *;
    [intros Hin; now apply Ng in Hin| |intros Hin; now apply Ng in Hin].
  pose proof (apply_options_shape PerCall options 0 req1 s1) as Hp.
  pose proof (apply_options_no_send PerCall options 0 req1 s1) as Np.
  destruct (apply_options PerCall 0 options req1 s1)
    as [[[[[err|] req2]|msg] s2] t2] eqn:Ep; unfold trace in *; cbn in Np |- *.
  1, 3: intros [Hin|Hin]%in_app_or; [now apply Ng in Hin|now apply Np in Hin].
  rewrite dispatch_stages.
  assert (Hpre : Forall success (t1 ++ t2))
    by (subst t1 t2; apply Forall_app_2; apply successes_success).
  destruct (if debug c then logRequest req2 (log c) s2 else (Done tt, s2))
    as [[[]|msg] s3]; cbn.
  2: { rewrite app_nil_r.
       intros [Hin|Hin]%in_app_or; [now apply Ng in Hin|now apply Np in Hin]. }
  pose proof (respond_no_send c parser) as Nr.
  destruct (Do (httpClient_ c) req2 s3) as [[[[resp'|] [err|]]|msg] s4] eqn:Edo; cbn.
  2: { destruct (respond c parser resp' s4) as [[a s5] t3] eqn:Er. cbn.
       intros [Hin|[Hin|Hin]%in_app_or]%in_app_or;
         [now apply Ng in Hin|now apply Np in Hin|].
       destruct Hin as [Hin|Hin].
       - injection Hin as <- <-. exists (t1 ++ t2), s3, s4. rewrite Er.
         split; [exact Hpre|]. split; [eauto 10|]. split; [exact Edo|].
         unfold answer, final, trace. cbn. now rewrite <- app_assoc.
       - specialize (Nr resp' s4 req o). rewrite Er in Nr. now apply Nr in Hin. }
  all: intros [Hin|[Hin|Hin]%in_app_or]%in_app_or;
    [now apply Ng in Hin|now apply Np in Hin|].
  all: destruct Hin as [Hin|[]]; injection Hin as <- <-.
  all: exists (t1 ++ t2), s3, s4.
  all: split; [exact Hpre|]; split; [eauto 10|]; split; [exact Edo|].
  all: now rewrite <- app_assoc.
Qed.

(** Once the request is built and every option has returned nil, the
    request is handed to the transport, unless logging it panics. *)
Lemma DoRequest_dispatches c ctx method path parser options s req :
  built_by c ctx method path options s req ->
  debug c = false \/ is_Some (log c) ->
  exists before,
    In (EvSend req (Do (httpClient_ c) req before).1)
       (trace (DoRequest c ctx method path parser options s)).
Proof.
  intros (req0 & req1 & s1 & t1 & s2 & t2 & Hnew & Hg & Hp) Hsafe.
  rewrite DoRequest_stages, Hnew, Hg, Hp, dispatch_stages.
  destruct (logRequest_safe c req s2 Hsafe) as (s3 & ->).
  exists s3.
  destruct (Do (httpClient_ c) req s3) as [[[[resp|] [err|]]|msg] s4]; cbn.
  2: destruct (respond c parser resp s4) as [[a s5] t3]; cbn.
  all: do 2 (apply in_or_app; right); now left.
Qed.

(** A parser built over a nil destination fails on every response. *)
Lemma parser_over_nil_fails (p : Delivering) (resp : http.Response) (s : Store) :
  over_nil p ->
  exists e,
    (parser_of p (Some resp) s).1.1 = Done (Some e) /\
    (nil_destination p = true -> e = configuration_error p (Some resp)).
Proof.
  intros [Hnil|(d & -> & Hd)].
  - exists (configuration_error p (Some resp)).
    now rewrite (delivering_parser_rejects_nil p _ s (or_intror Hnil)).
  - destruct (Hd (http.Body resp) s) as (e & b' & Hdec).
    exists e. cbn. rewrite Hdec. split; [reflexivity|discriminate].
Qed.


End Dispatch.

(** ** Header sets that are shared *)

Section SharedHeaders.

Context {U : Universe} {L : Library}.

Lemma content_insert (heap : gmap nat (gmap string (list string))) l h :
  ByReference.content (<[l := h]> heap) l = h.
Proof. unfold ByReference.content. now rewrite lookup_insert_eq. Qed.

Lemma content_insert_other (heap : gmap nat (gmap string (list string))) l l' h :
  l <> l' -> ByReference.content (<[l := h]> heap) l' = ByReference.content heap l'.
Proof. intros Hl. unfold ByReference.content. now rewrite lookup_insert_ne. Qed.

(** One application of either option does to the headers of a request
    what the model by value says, for the header set that the map holds
    when the option is applied. *)
Lemma view_WithHeadersOpt l r heap (s : Store) :
  exists r',
    ByReference.WithHeadersOpt (Some l) (Some r) heap = (Done None, Some r', heap) /\
    WithHeadersOpt (Some (ByReference.content heap l)) (Some (ByReference.view heap r)) s =
      (Done None, Some (ByReference.view heap r'), s).
Proof. eexists. split; reflexivity. Qed.

Lemma view_basicAuthRequestOption username password l r heap (s : Store) :
  ByReference.Header r = Some l ->
  exists heap',
    ByReference.basicAuthRequestOption username password (Some r) heap =
      (Done None, Some r, heap') /\
    basicAuthRequestOption username password (Some (ByReference.view heap r)) s =
      (Done None, Some (ByReference.view heap' r), s).
Proof.
  intros Hl. unfold ByReference.basicAuthRequestOption. rewrite Hl.
  eexists. split; [reflexivity|].
  unfold basicAuthRequestOption, http.SetBasicAuth, ByReference.view,
    ByReference.headers. rewrite Hl. cbn. now rewrite content_insert.
Qed.

Lemma apply_options_ends_with_WithHeadersOpt before l :
  forall req heap req' heap',
    ByReference.apply_options (before ++ [ByReference.WithHeadersOpt (Some l)])
      req heap = (Done (None, req'), heap') ->
    ByReference.Header req' = Some l.
Proof.
  induction before as [|opt rest IH]; intros req heap req' heap'; cbn.
  - intros Heq. now injection Heq as <- _.
  - destruct (opt (Some req) heap) as [[[[e|]|msg] req1] heap1]; try discriminate.
    apply IH.
Qed.

(** C9, as amended.  Let any option return on a request and leave the
    caller's header set [h] as it was.  The Headers option applied next
    with [h] returns nil and leaves the headers of the request equal to
    [h], as it does when applied alone.  The basic-auth option is such
    an option on every request whose header map is not [h] itself: it
    writes the Authorization header into the map of the request, and
    after the Headers option the request carries [h] and nothing of what
    basic auth wrote.  So in a call: when the options of the call end
    with the Headers option over [h], the request has the map [h], with
    the content that [h] had at the start if no option wrote into [h];
    and the credentials of the client's basic-auth option are gone when
    the request was built with a map of its own. *)
Theorem WithHeadersOpt_after_option_on_another_map
    (opt : ByReference.RequestOption) (l : nat)
    (req : ByReference.Request) (heap : gmap nat (gmap string (list string))) :
  ((forall e req1 heap1,
       opt (Some req) heap = (Done e, Some req1, heap1) ->
       ByReference.content heap1 l = ByReference.content heap l) ->
   ByReference.discards opt l req heap) /\
  (forall username password l0,
      ByReference.Header req = Some l0 -> l0 <> l ->
      ByReference.discards
        (ByReference.basicAuthRequestOption username password) l req heap /\
      exists req1 heap1 after,
        ByReference.basicAuthRequestOption username password (Some req) heap =
          (Done None, Some req1, heap1) /\
        ByReference.headers heap1 req1 =
          Some (<["Authorization" :=
                   ["Basic " +:+ http.basicAuth username password]]>
                  (ByReference.content heap l0)) /\
        ByReference.WithHeadersOpt (Some l) (Some req1) heap1 =
          (Done None, Some after, heap1) /\
        ByReference.headers heap1 after = Some (ByReference.content heap l)) /\
  (forall global before req' heap',
      ByReference.apply_chains global
        (before ++ [ByReference.WithHeadersOpt (Some l)]) req heap =
        (Done (None, req'), heap') ->
      ByReference.Header req' = Some l /\
      (ByReference.content heap' l = ByReference.content heap l ->
       ByReference.headers heap' req' = Some (ByReference.content heap l))) /\
  (forall username password l0,
      ByReference.Header req = Some l0 -> l0 <> l ->
      exists req' heap',
        ByReference.apply_chains
          [ByReference.basicAuthRequestOption username password]
          [ByReference.WithHeadersOpt (Some l)] req heap =
          (Done (None, req'), heap') /\
        ByReference.headers heap' req' = Some (ByReference.content heap l)).
Proof.
  assert (Hgeneral : forall opt',
    (forall e req1 heap1,
        opt' (Some req) heap = (Done e, Some req1, heap1) ->
        ByReference.content heap1 l = ByReference.content heap l) ->
    ByReference.discards opt' l req heap).
  { intros opt' Hkept e req1 heap1 Hopt. eexists _, _.
    split; [reflexivity|]. split; [reflexivity|].
    unfold ByReference.headers. cbn. now rewrite (Hkept _ _ _ Hopt). }
  split; [apply Hgeneral|]. split; [|split].
  - intros username password l0 Hl0 Hne. split.
    + apply Hgeneral. intros e req1 heap1.
      unfold ByReference.basicAuthRequestOption. rewrite Hl0.
      intros Heq. injection Heq as _ _ <-. now apply content_insert_other.
    + unfold ByReference.basicAuthRequestOption. rewrite Hl0.
      eexists _, _, _. split; [reflexivity|].
      split; [unfold ByReference.headers; rewrite Hl0; cbn;
              now rewrite content_insert|].
      split; [reflexivity|].
      unfold ByReference.headers. cbn. now rewrite content_insert_other.
  - intros global before req' heap'. unfold ByReference.apply_chains.
    destruct (ByReference.apply_options global req heap)
      as [[[[err|] req1]|msg] heap1]; try discriminate.
    intros Hrun. apply apply_options_ends_with_WithHeadersOpt in Hrun as Hheader.
    split; [exact Hheader|]. intros Hkept.
    unfold ByReference.headers. rewrite Hheader. cbn. now rewrite Hkept.
  - intros username password l0 Hl0 Hne.
    unfold ByReference.apply_chains. cbn.
    unfold ByReference.basicAuthRequestOption. rewrite Hl0. cbn.
    eexists _, _. split; [reflexivity|].
    unfold ByReference.headers. cbn. now rewrite content_insert_other.
Qed.

End SharedHeaders.

(** ** The body, the nil destinations and the shared headers at work *)

Section RevisedWitnesses.

#[local] Existing Instance Scenario.universe.
#[local] Existing Instance Scenario.library.

Import Scenario.

Ltac found := vm_compute; repeat first [left; reflexivity | right].

(** A client in debug mode, as the example program configures it, and a
    server that answers 200 with a body of two bytes: the transport
    hands over a stream that is open, the validator sees it closed, and
    the deferred Close closes it again. *)
Lemma debug_closes_body_twice_witness :
  let run := DoRequest
               (NewClient "http://host" [WithHttpClient (answering groups); WithDebug true])
               tt "GET" "/api/v1/groups" (RawStringParser (Some 1%nat)) [] s0 in
  In (EvSend fresh (Done (Some groups, None))) (trace run) /\
  http.Closed groups = false /\
  answer run = Done None /\
  count is_close (trace run) = 1%nat /\
  closes (trace run) = 2%nat.
Proof.
  intros run.
  assert (Hin : In (EvSend fresh (Done (Some groups, None))) (trace run)) by found.
  assert (Hlog : log (NewClient "http://host"
                        [WithHttpClient (answering groups); WithDebug true])
                 = Some 0%nat) by reflexivity.
  destruct (debug_closes_body_twice
              (NewClient "http://host" [WithHttpClient (answering groups); WithDebug true])
              tt "GET" "/api/v1/groups" (RawStringParser (Some 1%nat)) [] s0
              fresh groups 0%nat eq_refl Hlog Hin eq_refl)
    as (_ & Hclose & _ & Htwice).
  split; [exact Hin|]. split; [reflexivity|].
  split; [vm_compute; reflexivity|]. split; [exact Hclose|exact Htwice].
Defined.

Lemma destination_0_refused : refused_by_decoder 0%nat.
Proof.
  intros b s. unfold Decode; cbn. unfold decode, ioutil.ReadAll.
  destruct (io.fault b) as [e|]; eauto.
Defined.


(** A request with a map of its own: the credentials that basic auth
    writes are gone after the Headers option. *)
Lemma WithHeadersOpt_after_option_on_another_map_witness :
  ByReference.discards (ByReference.basicAuthRequestOption "Aladdin" "open sesame")
    1 ByReference.built ByReference.heap0 /\
  exists req' heap',
    ByReference.apply_chains
      [ByReference.basicAuthRequestOption "Aladdin" "open sesame"]
      [ByReference.WithHeadersOpt (Some 1%nat)]
      ByReference.built ByReference.heap0 = (Done (None, req'), heap') /\
    ByReference.headers heap' req' = Some ByReference.accept.
Proof.
  destruct (WithHeadersOpt_after_option_on_another_map
              (ByReference.basicAuthRequestOption "Aladdin" "open sesame")
              1 ByReference.built ByReference.heap0)
    as (_ & Hbasic & _ & Hcall).
  split.
  - apply (Hbasic "Aladdin" "open sesame" 0%nat eq_refl). discriminate.
  - destruct (Hcall "Aladdin" "open sesame" 0%nat eq_refl) as (req' & heap' & Hrun & Hh);
      [discriminate|].
    exists req', heap'. split; [exact Hrun|]. rewrite Hh. reflexivity.
Defined.

(** C9, as the specification states it, fails when the request already
    holds the map [h].  Basic auth then writes the credentials into [h]
    itself, and the Headers option over [h] keeps them: the headers are
    not what [h] held, and not what the Headers option alone leaves.
    That is what happens in a call whose global chain holds the Headers
    option over [h] and then basic auth, and whose own options hold the
    Headers option over [h] again: the request goes out with the
    Authorization header. *)
Lemma WithHeadersOpt_keeps_what_was_written_into_h :
  ~ ByReference.discards (ByReference.basicAuthRequestOption "Aladdin" "open sesame")
      1 ByReference.sharing ByReference.heap0 /\
  exists req' heap' now,
    ByReference.apply_chains
      [ByReference.WithHeadersOpt (Some 1%nat);
       ByReference.basicAuthRequestOption "Aladdin" "open sesame"]
      [ByReference.WithHeadersOpt (Some 1%nat)]
      ByReference.built ByReference.heap0 = (Done (None, req'), heap') /\
    ByReference.headers heap' req' = Some now /\
    now !! "Authorization"%string = Some ["Basic QWxhZGRpbjpvcGVuIHNlc2FtZQ=="%string] /\
    ByReference.accept !! "Authorization"%string = None.
Proof.
  split.
  - intros Hclaim.
    destruct (Hclaim None ByReference.sharing _ eq_refl)
      as (after & alone & Hafter & _ & Hh & _).
    injection Hafter as <-.
    apply (f_equal (fun o => o ≫= (fun m => m !! "Authorization"%string))) in Hh.
    vm_compute in Hh. discriminate Hh.
  - eexists _, _, _. split; [reflexivity|].
    split; [reflexivity|]. split; vm_compute; reflexivity.
Defined.

End RevisedWitnesses.
